(** * cenv: the variable substitution automaton of [src/cenv.cc]

    A shallow embedding of [cenv::substitute_vars] and of the stream
    operator built on it, followed by the properties of the automaton.

    The C++ function reads characters from a [std::istream], keeps a
    [std::stack] of pending variable names and a flag [after_dollar], writes
    to a [std::ostream] and throws [syntax_exception].  Here the local
    variables and the output stream form an explicit [state]; the helper
    lambdas become computations in a small state-and-exception monad, in
    which a thrown exception keeps the state reached so far (what has been
    put on the stream stays on the stream). *)

From stdpp Require Import gmap strings list.
From Stdlib Require Import Ascii.

Module cenv.

(** ** Strings

    [std::string] is [string]; [push_back] and [append] add at the end. *)

Definition push_back (s : string) (ch : ascii) : string := s +:+ String ch "".

Fixpoint string_forallb (p : ascii → bool) (s : string) : bool :=
  match s with
  | "" => true
  | String c s' => p c && string_forallb p s'
  end.

Fixpoint string_repeat (s : string) (n : nat) : string :=
  match n with
  | O => ""
  | S n' => s +:+ string_repeat s n'
  end.

(** ** [class syntax_exception]

    The exception carries its message and nothing else.  The four places
    that throw build these four messages. *)

Record syntax_exception := { what : string }.

Definition UnknownVariable (key : string) : syntax_exception :=
  {| what := "Unknown variable: " +:+ key |}.

Definition RecursionLimitExceeded : syntax_exception :=
  {| what := "Recursion depth limit exceeded in variable" |}.

Definition InvalidVariableStart (ch : ascii) : syntax_exception :=
  {| what := "Invalid variable start character: " +:+ String ch "" |}.

Definition UnterminatedBracedVariable : syntax_exception :=
  {| what := "Unterminated braced variable" |}.

(** ** The local state of [substitute_vars] *)

Record stack_entry := { braced : bool; contents : string }.

Record state := {
  after_dollar : bool;
  stack : list stack_entry;   (* head = [stack.top ()] *)
  output : string             (* what has been written to [output] *)
}.

(** How a computation ends: it returns, it throws (the state is the one at
    the [throw]), or an [assert] fails. *)
Inductive outcome (A : Type) :=
  | Returned (a : A) (st : state)
  | Thrown (e : syntax_exception) (st : state)
  | Aborted (st : state).
Arguments Returned {A} a st.
Arguments Thrown {A} e st.
Arguments Aborted {A} st.

Definition M (A : Type) : Type := state → outcome A.

Definition ret {A} (a : A) : M A := λ st, Returned a st.

Definition bind {A B} (m : M A) (k : A → M B) : M B := λ st,
  match m st with
  | Returned a st' => k a st'
  | Thrown e st' => Thrown e st'
  | Aborted st' => Aborted st'
  end.

Definition throw {A} (e : syntax_exception) : M A := λ st, Thrown e st.

Declare Scope cenv_scope.
Delimit Scope cenv_scope with cenv.
Notation "'let*' x := m 'in' k" := (bind m (λ x, k))
  (at level 10, x name, m at level 100, k at level 200) : cenv_scope.
Notation "m >>> k" := (bind m (λ _, k))
  (at level 100, k at level 200, right associativity) : cenv_scope.
Open Scope cenv_scope.

(** [if (c) stmt;] *)
Definition when (c : bool) (m : M unit) : M unit := if c then m else ret ().

(** Reading a local variable, or evaluating a [const] helper. *)
Definition gets {A} (f : state → A) : M A := λ st, Returned (f st) st.

Definition set_after_dollar (b : bool) : M unit := λ st,
  Returned () {| after_dollar := b; stack := stack st; output := output st |}.

Section helpers.

Variable variables : gmap string string.

Definition is_braced (st : state) : bool :=
  match stack st with [] => false | top :: _ => braced top end.

Definition is_unbraced (st : state) : bool :=
  match stack st with [] => false | top :: _ => negb (braced top) end.

Definition lookup (key : string) : M string :=
  match variables !! key with
  | Some value => ret value
  | None => throw (UnknownVariable key)
  end.

Definition push (b : bool) : M unit := λ st,
  if 1024 <=? length (stack st)
  then Thrown RecursionLimitExceeded st
  else Returned () {| after_dollar := after_dollar st;
                      stack := {| braced := b; contents := "" |} :: stack st;
                      output := output st |}.

Definition write (ch : ascii) : M unit := λ st,
  match stack st with
  | top :: below =>
      Returned () {| after_dollar := after_dollar st;
                     stack := {| braced := braced top;
                                 contents := push_back (contents top) ch |} :: below;
                     output := output st |}
  | [] =>
      Returned () {| after_dollar := after_dollar st;
                     stack := [];
                     output := push_back (output st) ch |}
  end.

Definition write_str (str : string) : M unit := λ st,
  match stack st with
  | top :: below =>
      Returned () {| after_dollar := after_dollar st;
                     stack := {| braced := braced top;
                                 contents := contents top +:+ str |} :: below;
                     output := output st |}
  | [] =>
      Returned () {| after_dollar := after_dollar st;
                     stack := [];
                     output := output st +:+ str |}
  end.

(** [pop]: the top entry's contents are moved out, the entry is removed,
    and the value found for the name is written to what is now the sink. *)
Definition pop : M unit := λ st,
  match stack st with
  | [] => Aborted st
  | top :: below =>
      (let* value := lookup (contents top) in write_str value)
        {| after_dollar := after_dollar st; stack := below; output := output st |}
  end.

(** ** The automaton *)

(** The labels of the last [case] group, in the order of the source. *)
Definition name_chars : string :=
  "_abcdefghijklmnopqrstuvwxyzABCDEFGHIJKLMNOPQRSTUVWXYZ0123456789".

Fixpoint string_mem (ch : ascii) (s : string) : bool :=
  match s with
  | "" => false
  | String c s' => (ch =? c)%char || string_mem ch s'
  end.

Definition is_name_char (ch : ascii) : bool := string_mem ch name_chars.

(** The statements under the [case '_': ... case '9':] labels, also reached
    by falling through from [default]. *)
Definition case_name (ch : ascii) : M unit :=
  let* ad := gets after_dollar in
  when ad (push false) >>>
  write ch.

Definition case_dollar : M unit :=
  let* ad := gets after_dollar in
  if ad then
    set_after_dollar false >>>
    write "$"
  else
    let* u := gets is_unbraced in
    when u pop >>>
    set_after_dollar true.

Definition case_open : M unit :=
  let* ad := gets after_dollar in
  if ad then
    set_after_dollar false >>>
    push true
  else
    let* u := gets is_unbraced in
    when u pop >>>
    write "{".

Definition case_close : M unit :=
  let* b := gets is_braced in
  let* ad := gets after_dollar in
  if b && negb ad then
    pop
  else
    set_after_dollar false >>>
    write "}".

Definition case_default (ch : ascii) : M unit :=
  let* u := gets is_unbraced in
  if u then
    pop                                    (* [break] *)
  else
    let* ad := gets after_dollar in
    if ad then throw (InvalidVariableStart ch)
    else case_name ch.                     (* [[fallthrough]] *)

(** The body of [switch (ch)]. *)
Definition switch (ch : ascii) : M unit :=
  if (ch =? "$")%char then case_dollar
  else if (ch =? "{")%char then case_open
  else if (ch =? "}")%char then case_close
  else if is_name_char ch then case_name ch
  else case_default ch.

(** [while (input.get (ch)) switch (ch) ...] *)
Fixpoint scan (input : string) : M unit :=
  match input with
  | "" => ret ()
  | String ch rest => switch ch >>> scan rest
  end.

(** [while (!stack.empty ()) if (is_braced ()) throw ...; else pop ();]
    Every iteration that does not throw removes one entry, so the number of
    entries bounds the number of iterations. *)
Fixpoint drain_loop (fuel : nat) : M unit := λ st,
  match fuel with
  | O => Returned () st
  | S fuel' =>
      match stack st with
      | [] => Returned () st
      | _ :: _ =>
          (let* b := gets is_braced in
           if b then throw UnterminatedBracedVariable
           else pop >>> drain_loop fuel') st
      end
  end.

Definition drain : M unit := λ st, drain_loop (length (stack st)) st.

End helpers.

Definition initial (out : string) : state :=
  {| after_dollar := false; stack := []; output := out |}.

(** [substitute_vars (input, output, variables)], [out] being what the
    stream [output] holds at the call. *)
Definition substitute_vars (input : string) (out : string)
    (variables : gmap string string) : outcome unit :=
  (scan variables input >>> drain variables) (initial out).

Record substitor := {
  input : string;
  variables : gmap string string
}.

(** [operator << (stream, subst)] *)
Definition operator_shl (stream : string) (subst : substitor) : outcome unit :=
  substitute_vars (input subst) stream (variables subst).

(** One expansion as its caller sees it: the template is written through
    the operator to a fresh stream. *)
Inductive expansion :=
  | Expanded (text : string)
  | Failed (e : syntax_exception)
  | AssertionFailed.

Definition observe (r : outcome unit) : expansion :=
  match r with
  | Returned _ st => Expanded (output st)
  | Thrown e _ => Failed e
  | Aborted _ => AssertionFailed
  end.

Definition expand (template : string) (variables : gmap string string) : expansion :=
  observe (operator_shl "" {| input := template; variables := variables |}).

(** ** Vocabulary of the statements *)

(** The states the loop of [substitute_vars] passes through: those reached
    from the initial one by reading some characters without throwing. *)
Definition reachable (m : gmap string string) (st : state) : Prop :=
  ∃ (consumed out : string), scan m consumed (initial out) = Returned () st.

(** Characters that reach [default]. *)
Definition is_other_char (ch : ascii) : bool :=
  negb (ch =? "$")%char && negb (ch =? "{")%char && negb (ch =? "}")%char
  && negb (is_name_char ch).

(** Text in which neither ['$'] nor ['}'] occurs. *)
Definition plain (s : string) : bool :=
  negb (string_mem "$" s) && negb (string_mem "}" s).

(** A tower of braced references, each with literal text before and after
    the reference it encloses:
    [nest [(p1,q1); (p2,q2)] w] is ["${" p1 "${" p2 w q2 "}" q1 "}"]. *)
Fixpoint nest (layers : list (string * string)) (core : string) : string :=
  match layers with
  | [] => core
  | (p, q) :: inner => "${" +:+ p +:+ nest inner core +:+ q +:+ "}"
  end.

(** The names such a tower assembles, innermost first, and the value of the
    outermost one. *)
Fixpoint resolve_nest (m : gmap string string)
    (layers : list (string * string)) (core : string) : option string :=
  match layers with
  | [] => Some core
  | (p, q) :: inner =>
      match resolve_nest m inner core with
      | Some v => m !! (p +:+ v +:+ q)
      | None => None
      end
  end.

Definition plain_layer (l : string * string) : bool := plain l.1 && plain l.2.

(** What [outcome] holds on the stream, however the call ended. *)
Definition final_state {A} (r : outcome A) : state :=
  match r with
  | Returned _ st => st
  | Thrown _ st => st
  | Aborted st => st
  end.

(** A name that was opened by a name character. *)
Definition starts_with_name_char (s : string) : bool :=
  match s with
  | "" => false
  | String c _ => is_name_char c
  end.

Definition well_started (e : stack_entry) : Prop :=
  braced e = false → starts_with_name_char (contents e) = true.

(** The same state on a stream that already held [before]. *)
Definition prepend (before : string) (st : state) : state :=
  {| after_dollar := after_dollar st;
     stack := stack st;
     output := before +:+ output st |}.

Definition on_stream (before : string) {A} (r : outcome A) : outcome A :=
  match r with
  | Returned a st => Returned a (prepend before st)
  | Thrown e st => Thrown e (prepend before st)
  | Aborted st => Aborted (prepend before st)
  end.

(** A computation that only ever appends to the stream. *)
Definition appends {A} (f : M A) : Prop :=
  ∀ before st, f (prepend before st) = on_stream before (f st).

(** Whatever [f] returns, [f'] returns too. *)
Definition carries_over {A} (f f' : M A) : Prop :=
  ∀ st a st', f st = Returned a st' → f' st = Returned a st'.

(** A computation that takes nothing back from the stream, however it
    ends. *)
Definition keeps_output {A} (f : M A) : Prop :=
  ∀ st, ∃ written, output (final_state (f st)) = output st +:+ written.

(** The five ways the [switch] can go. *)
Inductive char_class (ch : ascii) : Prop :=
  | class_dollar : ch = "$"%char → char_class ch
  | class_open : ch = "{"%char → char_class ch
  | class_close : ch = "}"%char → char_class ch
  | class_name : is_name_char ch = true → char_class ch
  | class_other : is_other_char ch = true → char_class ch.

(** ** The callers: streams, [struct config] and the options of [main] *)

(** Doubling every ['$'], the way a template spells a literal dollar. *)
Fixpoint escape (s : string) : string :=
  match s with
  | "" => ""
  | String c s' =>
      if (c =? "$")%char then String "$" (String "$" (escape s'))
      else String c (escape s')
  end.

(** A template that expands without an exception. *)
Definition expands (m : gmap string string) (template : string) : Prop :=
  ∃ text, expand template m = Expanded text.

(** The two characters that a literal cannot hold as they are. *)
Definition nl : string := String "010" "".
Definition dq : string := String "034" "".

(** Writing to a [std::ostream]: the stream afterwards, and whether the
    insertion returned, threw, or stopped at a failed [assert].  (Failures
    of the stream itself are left out.) *)
Inductive stream_result :=
  | Written (stream : string)
  | Raised (e : syntax_exception) (stream : string)
  | Crashed (stream : string).

Definition inserter : Type := string → stream_result.

(** [stream << text] for a string or a character. *)
Definition put (text : string) : inserter := λ stream, Written (stream +:+ text).

(** [stream << subst]: the operator above. *)
Definition put_subst (subst : substitor) : inserter := λ stream,
  match operator_shl stream subst with
  | Returned _ st => Written (output st)
  | Thrown e st => Raised e (output st)
  | Aborted st => Crashed (output st)
  end.

(** One insertion after the other; an exception ends the statement. *)
Definition and_then (a b : inserter) : inserter := λ stream,
  match a stream with
  | Written stream' => b stream'
  | Raised e stream' => Raised e stream'
  | Crashed stream' => Crashed stream'
  end.

Notation "a <<< b" := (and_then a b)
  (at level 100, b at level 200, right associativity) : cenv_scope.

Definition skip : inserter := λ stream, Written stream.

(** [for (const auto &x : l) body] *)
Fixpoint for_each {A} (l : list A) (body : A → inserter) : inserter :=
  match l with
  | [] => skip
  | x :: l' => body x <<< for_each l' body
  end.

(** [std::string::npos]: the largest [size_t], 64 bits wide. *)
Definition npos : Z := (2 ^ 64 - 1)%Z.

(** [s.find_last_of (ch)]: the index of the last [ch] in [s], or [npos]. *)
Fixpoint find_last_of_from (s : string) (ch : ascii) (i found : Z) : Z :=
  match s with
  | "" => found
  | String c s' =>
      find_last_of_from s' ch (i + 1)%Z (if (c =? ch)%char then i else found)
  end.

Definition find_last_of (s : string) (ch : ascii) : Z :=
  find_last_of_from s ch 0%Z npos.

Fixpoint string_drop (n : nat) (s : string) : string :=
  match n, s with
  | O, _ => s
  | S n', String _ s' => string_drop n' s'
  | S _, "" => ""
  end.

(** The C string at a [const char *]: the characters up to the first NUL. *)
Fixpoint c_string (s : string) : string :=
  match s with
  | "" => ""
  | String c s' => if (c =? "000")%char then "" else String c (c_string s')
  end.

(** The C string at [s.c_str () + offset], the offset being computed in
    [size_t], where [npos + 1] is [0]. *)
Definition c_str_plus (s : string) (offset : Z) : string :=
  c_string (string_drop (Z.to_nat (offset mod 2 ^ 64)) s).

Module config.

Record config := {
  variables : gmap string string;
  folder : string;
  prompt : string;
  prompt_set : bool;
  root : string;
  root_set : bool;
  executable_suffixes : list string;
  include_suffixes : list string;
  info_suffixes : list string;
  library_suffixes : list string;
  manpage_suffixes : list string;
  pkg_config_suffixes : list string;
  environment_variables : gmap string string
}.

(** The member initialisers. *)
Definition fresh : config :=
  {| variables := ∅; folder := ""; prompt := ""; prompt_set := false;
     root := ""; root_set := false;
     executable_suffixes := []; include_suffixes := []; info_suffixes := [];
     library_suffixes := []; manpage_suffixes := []; pkg_config_suffixes := [];
     environment_variables := ∅ |}.

(** [variables = v] *)
Definition set_variables (v : gmap string string) (c : config) : config :=
  {| variables := v;
     folder := folder c;
     prompt := prompt c;
     prompt_set := prompt_set c;
     root := root c;
     root_set := root_set c;
     executable_suffixes := executable_suffixes c;
     include_suffixes := include_suffixes c;
     info_suffixes := info_suffixes c;
     library_suffixes := library_suffixes c;
     manpage_suffixes := manpage_suffixes c;
     pkg_config_suffixes := pkg_config_suffixes c;
     environment_variables := environment_variables c |}.

(** [folder = s] *)
Definition set_folder (s : string) (c : config) : config :=
  {| variables := variables c;
     folder := s;
     prompt := prompt c;
     prompt_set := prompt_set c;
     root := root c;
     root_set := root_set c;
     executable_suffixes := executable_suffixes c;
     include_suffixes := include_suffixes c;
     info_suffixes := info_suffixes c;
     library_suffixes := library_suffixes c;
     manpage_suffixes := manpage_suffixes c;
     pkg_config_suffixes := pkg_config_suffixes c;
     environment_variables := environment_variables c |}.

(** [prompt = s; prompt_set = true;] *)
Definition set_prompt (s : string) (c : config) : config :=
  {| variables := variables c;
     folder := folder c;
     prompt := s;
     prompt_set := true;
     root := root c;
     root_set := root_set c;
     executable_suffixes := executable_suffixes c;
     include_suffixes := include_suffixes c;
     info_suffixes := info_suffixes c;
     library_suffixes := library_suffixes c;
     manpage_suffixes := manpage_suffixes c;
     pkg_config_suffixes := pkg_config_suffixes c;
     environment_variables := environment_variables c |}.

(** [root = s; root_set = true;] *)
Definition set_root (s : string) (c : config) : config :=
  {| variables := variables c;
     folder := folder c;
     prompt := prompt c;
     prompt_set := prompt_set c;
     root := s;
     root_set := true;
     executable_suffixes := executable_suffixes c;
     include_suffixes := include_suffixes c;
     info_suffixes := info_suffixes c;
     library_suffixes := library_suffixes c;
     manpage_suffixes := manpage_suffixes c;
     pkg_config_suffixes := pkg_config_suffixes c;
     environment_variables := environment_variables c |}.

(** [executable_suffixes = l] *)
Definition set_executable_suffixes (l : list string) (c : config) : config :=
  {| variables := variables c;
     folder := folder c;
     prompt := prompt c;
     prompt_set := prompt_set c;
     root := root c;
     root_set := root_set c;
     executable_suffixes := l;
     include_suffixes := include_suffixes c;
     info_suffixes := info_suffixes c;
     library_suffixes := library_suffixes c;
     manpage_suffixes := manpage_suffixes c;
     pkg_config_suffixes := pkg_config_suffixes c;
     environment_variables := environment_variables c |}.

(** [include_suffixes = l] *)
Definition set_include_suffixes (l : list string) (c : config) : config :=
  {| variables := variables c;
     folder := folder c;
     prompt := prompt c;
     prompt_set := prompt_set c;
     root := root c;
     root_set := root_set c;
     executable_suffixes := executable_suffixes c;
     include_suffixes := l;
     info_suffixes := info_suffixes c;
     library_suffixes := library_suffixes c;
     manpage_suffixes := manpage_suffixes c;
     pkg_config_suffixes := pkg_config_suffixes c;
     environment_variables := environment_variables c |}.

(** [info_suffixes = l] *)
Definition set_info_suffixes (l : list string) (c : config) : config :=
  {| variables := variables c;
     folder := folder c;
     prompt := prompt c;
     prompt_set := prompt_set c;
     root := root c;
     root_set := root_set c;
     executable_suffixes := executable_suffixes c;
     include_suffixes := include_suffixes c;
     info_suffixes := l;
     library_suffixes := library_suffixes c;
     manpage_suffixes := manpage_suffixes c;
     pkg_config_suffixes := pkg_config_suffixes c;
     environment_variables := environment_variables c |}.

(** [library_suffixes = l] *)
Definition set_library_suffixes (l : list string) (c : config) : config :=
  {| variables := variables c;
     folder := folder c;
     prompt := prompt c;
     prompt_set := prompt_set c;
     root := root c;
     root_set := root_set c;
     executable_suffixes := executable_suffixes c;
     include_suffixes := include_suffixes c;
     info_suffixes := info_suffixes c;
     library_suffixes := l;
     manpage_suffixes := manpage_suffixes c;
     pkg_config_suffixes := pkg_config_suffixes c;
     environment_variables := environment_variables c |}.

(** [manpage_suffixes = l] *)
Definition set_manpage_suffixes (l : list string) (c : config) : config :=
  {| variables := variables c;
     folder := folder c;
     prompt := prompt c;
     prompt_set := prompt_set c;
     root := root c;
     root_set := root_set c;
     executable_suffixes := executable_suffixes c;
     include_suffixes := include_suffixes c;
     info_suffixes := info_suffixes c;
     library_suffixes := library_suffixes c;
     manpage_suffixes := l;
     pkg_config_suffixes := pkg_config_suffixes c;
     environment_variables := environment_variables c |}.

(** [pkg_config_suffixes = l] *)
Definition set_pkg_config_suffixes (l : list string) (c : config) : config :=
  {| variables := variables c;
     folder := folder c;
     prompt := prompt c;
     prompt_set := prompt_set c;
     root := root c;
     root_set := root_set c;
     executable_suffixes := executable_suffixes c;
     include_suffixes := include_suffixes c;
     info_suffixes := info_suffixes c;
     library_suffixes := library_suffixes c;
     manpage_suffixes := manpage_suffixes c;
     pkg_config_suffixes := l;
     environment_variables := environment_variables c |}.

(** [variables.find (key) != variables.cend ()] *)
Definition defined (c : config) (key : string) : bool :=
  bool_decide (is_Some (variables c !! key)).

(** What [add_default_configs] builds when no prompt was chosen. *)
Definition default_prompt (c : config) : string :=
  "(" +:+ c_str_plus (folder c) (find_last_of (folder c) "/" + 1) +:+ ") ".

(** [add_default_configs]: every statement sets or extends one member and
    reads only members that no statement changes, so the members are given
    one by one; [push_back] adds at the end. *)
Definition add_default_configs (c : config) : config :=
  {| variables := variables c;
     folder := folder c;
     prompt := if prompt_set c then prompt c else default_prompt c;
     prompt_set := prompt_set c;
     root := if root_set c then root c else folder c;
     root_set := root_set c;
     executable_suffixes := executable_suffixes c ++ ["bin"];
     include_suffixes :=
       (include_suffixes c ++ ["include"])
       ++ (if defined c "mach_type" then ["include/${mach_type}"] else []);
     info_suffixes := info_suffixes c ++ ["share/info"];
     library_suffixes :=
       ((((library_suffixes c ++ ["lib"])
          ++ (if defined c "mach_type" then ["lib/${mach_type}"] else []))
         ++ (if defined c "mach_x32" then ["libx32"] else []))
        ++ (if defined c "mach_32" then ["lib32"] else []))
       ++ (if defined c "mach_64" then ["lib64"] else []);
     manpage_suffixes := (manpage_suffixes c ++ ["man"]) ++ ["share/man"];
     pkg_config_suffixes :=
       ((pkg_config_suffixes c ++ ["lib/pkgconfig"]) ++ ["share/pkgconfig"])
       ++ (if defined c "mach_type" then ["lib/${mach_type}/pkgconfig"] else []);
     environment_variables := environment_variables c |}.

(** [subst (str)] *)
Definition subst (c : config) (str : string) : substitor :=
  Build_substitor str (variables c).

(** The functions the script starts with, and the first line of
    [deactivate]. *)
Definition script_head : string :=
  "# Activate script generated by cenv" +:+ nl +:+
  "# Use the . command in the shell, do not run this script" +:+ nl +:+
  nl +:+
  "# Args: $1 - variable name" +:+ nl +:+
  "__cenv_defined () {" +:+ nl +:+
  "  ! [ " +:+ dq +:+ "x${!1+x}" +:+ dq +:+ " = x ]" +:+ nl +:+
  "}" +:+ nl +:+
  "# Args: $1 - variable name" +:+ nl +:+
  "__cenv_savevar () {" +:+ nl +:+
  "  if __cenv_defined " +:+ dq +:+ "$1" +:+ dq +:+ "; then" +:+ nl +:+
  "    printf -v __CENV_$1_DEFINED yes" +:+ nl +:+
  "    printf -v __CENV_$1_ORIG " +:+ dq +:+ "%s" +:+ dq +:+ " "
    +:+ dq +:+ "${!1}" +:+ dq +:+ nl +:+
  "  fi" +:+ nl +:+
  "}" +:+ nl +:+
  "# Args: $1 - variable name" +:+ nl +:+
  "__cenv_restorevar () {" +:+ nl +:+
  "  printf -v __CENV_TMP " +:+ dq +:+ "__CENV_%s_DEFINED" +:+ dq +:+ " "
    +:+ dq +:+ "$1" +:+ dq +:+ nl +:+
  "  if [ " +:+ dq +:+ "x${!__CENV_TMP}" +:+ dq +:+ " = xyes ]; then" +:+ nl +:+
  "    printf -v __CENV_TMP " +:+ dq +:+ "__CENV_%s_ORIG" +:+ dq +:+ " "
    +:+ dq +:+ "$1" +:+ dq +:+ nl +:+
  "    printf -v $1 " +:+ dq +:+ "%s" +:+ dq +:+ " "
    +:+ dq +:+ "${!__CENV_TMP}" +:+ dq +:+ nl +:+
  "    export $1" +:+ nl +:+
  "  else" +:+ nl +:+
  "    unset $1" +:+ nl +:+
  "  fi" +:+ nl +:+
  "  unset __CENV_TMP" +:+ nl +:+
  "  unset __CENV_$1_DEFINED" +:+ nl +:+
  "  unset __CENV_$1_ORIG" +:+ nl +:+
  "}" +:+ nl +:+
  "deactivate () {" +:+ nl +:+
  "  __cenv_restorevar PS1" +:+ nl.

(** [if (!suffixes.empty ()) output << text;] *)
Definition unless_empty (suffixes : list string) (a : inserter) : inserter :=
  match suffixes with
  | [] => skip
  | _ :: _ => a
  end.

(** The statements written out once for each of the eight path variables:
    the variable is saved, every suffix is put in front of it under the
    root, and it is exported. *)
Definition path_block (c : config) (name : string) (suffixes : list string)
    : inserter :=
  put ("__cenv_savevar " +:+ name +:+ nl) <<<
  for_each suffixes (λ suffix,
    put (name +:+ "=" +:+ dq) <<< put (root c) <<< put "/" <<<
    put_subst (subst c suffix) <<<
    put ("${" +:+ name +:+ "+:}${" +:+ name +:+ "}" +:+ dq +:+ nl)) <<<
  put ("export " +:+ name +:+ nl).

(** [write_activate_script (output)]; the unordered map is visited in the
    order of [map_to_list], the same in both loops. *)
Definition write_activate_script (c : config) : inserter :=
  put script_head <<<
  unless_empty (executable_suffixes c) (put ("  __cenv_restorevar PATH" +:+ nl)) <<<
  unless_empty (include_suffixes c)
    (put ("  __cenv_restorevar C_INCLUDE_PATH" +:+ nl)) <<<
  unless_empty (info_suffixes c) (put ("  __cenv_restorevar INFOPATH" +:+ nl)) <<<
  unless_empty (library_suffixes c)
    (put ("  __cenv_restorevar LIBRARY_PATH" +:+ nl +:+
          "  __cenv_restorevar LD_LIBRARY_PATH" +:+ nl +:+
          "  __cenv_restorevar DYLD_LIBRARY_PATH" +:+ nl)) <<<
  unless_empty (manpage_suffixes c) (put ("  __cenv_restorevar MANPATH" +:+ nl)) <<<
  unless_empty (pkg_config_suffixes c)
    (put ("  __cenv_restorevar PKG_CONFIG_PATH" +:+ nl)) <<<
  for_each (map_to_list (environment_variables c)) (λ e,
    put "  __cenv_restorevar " <<< put e.1 <<< put nl) <<<
  put ("}" +:+ nl) <<<
  put ("__cenv_savevar PS1" +:+ nl +:+ "PS1=" +:+ dq) <<<
  put_subst (subst c (prompt c)) <<<
  put ("${PS1}" +:+ dq +:+ nl) <<<
  unless_empty (executable_suffixes c)
    (path_block c "PATH" (executable_suffixes c)) <<<
  unless_empty (include_suffixes c)
    (path_block c "C_INCLUDE_PATH" (include_suffixes c)) <<<
  unless_empty (info_suffixes c) (path_block c "INFOPATH" (info_suffixes c)) <<<
  unless_empty (library_suffixes c)
    (path_block c "LIBRARY_PATH" (library_suffixes c) <<<
     path_block c "LD_LIBRARY_PATH" (library_suffixes c) <<<
     path_block c "DYLD_LIBRARY_PATH" (library_suffixes c)) <<<
  unless_empty (manpage_suffixes c) (path_block c "MANPATH" (manpage_suffixes c)) <<<
  unless_empty (pkg_config_suffixes c)
    (path_block c "PKG_CONFIG_PATH" (pkg_config_suffixes c)) <<<
  for_each (map_to_list (environment_variables c)) (λ e,
    put "__cenv_savevar " <<< put e.1 <<< put nl <<<
    put e.1 <<< put "=" <<< put_subst (subst c e.2) <<< put nl <<<
    put "export " <<< put e.1 <<< put nl).

End config.

(** ** The option loop and the end of [main] *)

Section main.

(** The macro of [config.h]. *)
Variable VERSION : string.

(** [std::cout], [std::cerr], and the two locals of [main] the loop sets. *)
Record process := {
  cfg : config.config;
  default_configs : bool;
  cout : string;
  cerr : string
}.

Definition usage : string := "Usage: cenv [options...] folder" +:+ nl.

Definition help : string :=
    "Options:" +:+ nl +:+
    "   -D <KEY>=<VAL> - Add a substition variable" +:+ nl +:+
    "   -e <SUFFIX>    - Add an executable suffix" +:+ nl +:+
    "   -E <KEY>=<VAL> - Add an extra environment variable" +:+ nl +:+
    "   -h             - Print this help text" +:+ nl +:+
    "   -i <SUFFIX>    - Add an include suffix" +:+ nl +:+
    "   -I <SUFFIX>    - Add an info suffix" +:+ nl +:+
    "   -l <SUFFIX>    - Add a library suffix" +:+ nl +:+
    "   -m <SUFFIX>    - Add a manpage suffix" +:+ nl +:+
    "   -n             - Turn off default configs" +:+ nl +:+
    "   -p <PROMPT>    - Choose the prompt text" +:+ nl +:+
    "   -P <SUFFIX>    - Add a pkg-config suffix" +:+ nl +:+
    "   -r <ROOT>      - Choose the root directory" +:+ nl +:+
    "   -v             - Print the version" +:+ nl.

(** [print_help ()] *)
Definition print_help (p : process) : process :=
  {| cfg := cfg p; default_configs := default_configs p;
     cout := (cout p +:+ usage) +:+ help; cerr := cerr p |}.

(** [print_error_usage ()] followed by [std::cerr << text]. *)
Definition error_usage (text : string) (p : process) : process :=
  {| cfg := cfg p; default_configs := default_configs p; cout := cout p;
     cerr := ((cerr p +:+ usage)
              +:+ "Run cenv -h to get the possible options" +:+ nl) +:+ text |}.

Definition set_cfg (c : config.config) (p : process) : process :=
  {| cfg := c; default_configs := default_configs p;
     cout := cout p; cerr := cerr p |}.

(** What one call of [getopt] hands to the [switch]: its result and the
    globals [optarg] and [optopt].  [optarg] is a C string: it holds no
    NUL. *)
Record getopt_result := { opt : ascii; optarg : string; optopt : ascii }.

(** How the body of the loop ends: the loop goes on, [main] returns, or
    [abort ()] is called. *)
Inductive flow :=
  | Continue (p : process)
  | Return (code : Z) (p : process)
  | Abort (p : process).

(** [strchr (optarg, '=')] and the two strings made around the place found:
    [std::string {optarg, p}] and [std::string {p + 1}]. *)
Fixpoint split_at_equals (s : string) : option (string * string) :=
  match s with
  | "" => None
  | String c s' =>
      if (c =? "=")%char then Some ("", s')
      else match split_at_equals s' with
           | Some (key, value) => Some (String c key, value)
           | None => None
           end
  end.

(** The cases ['D'] and ['E'], which differ in the message only: both
    assign to [cfg.variables]. *)
Definition case_define (letter : string) (r : getopt_result) (p : process) : flow :=
  match split_at_equals (optarg r) with
  | None =>
      Return 2 (error_usage ("The argument to -" +:+ letter +:+
                             " should contain a key and a value" +:+ nl) p)
  | Some (key, value) =>
      Continue (set_cfg (config.set_variables
                           (<[key := value]> (config.variables (cfg p))) (cfg p)) p)
  end.

(** The body of [switch (opt)]. *)
Definition option_case (r : getopt_result) (p : process) : flow :=
  let c := cfg p in
  if (opt r =? "D")%char then case_define "D" r p
  else if (opt r =? "e")%char then
    Continue (set_cfg (config.set_executable_suffixes
                         (optarg r :: config.executable_suffixes c) c) p)
  else if (opt r =? "E")%char then case_define "E" r p
  else if (opt r =? "h")%char then Return 0 (print_help p)
  else if (opt r =? "i")%char then
    Continue (set_cfg (config.set_include_suffixes
                         (optarg r :: config.include_suffixes c) c) p)
  else if (opt r =? "I")%char then
    Continue (set_cfg (config.set_info_suffixes
                         (optarg r :: config.info_suffixes c) c) p)
  else if (opt r =? "l")%char then
    Continue (set_cfg (config.set_library_suffixes
                         (optarg r :: config.library_suffixes c) c) p)
  else if (opt r =? "m")%char then
    Continue (set_cfg (config.set_manpage_suffixes
                         (optarg r :: config.manpage_suffixes c) c) p)
  else if (opt r =? "n")%char then
    Continue {| cfg := c; default_configs := false;
                cout := cout p; cerr := cerr p |}
  else if (opt r =? "p")%char then
    Continue (set_cfg (config.set_prompt (optarg r) c) p)
  else if (opt r =? "P")%char then
    Continue (set_cfg (config.set_pkg_config_suffixes
                         (optarg r :: config.pkg_config_suffixes c) c) p)
  else if (opt r =? "r")%char then
    Continue (set_cfg (config.set_root (optarg r) c) p)
  else if (opt r =? "v")%char then
    Return 0 {| cfg := c; default_configs := default_configs p;
                cout := (cout p +:+ VERSION) +:+ nl; cerr := cerr p |}
  else if (opt r =? "?")%char then
    Return 2 (error_usage (("Unknown option -" +:+ String (optopt r) "") +:+ nl) p)
  else if (opt r =? ":")%char then
    Return 2 (error_usage (("Missing argument for option -"
                            +:+ String (optopt r) "") +:+ nl) p)
  else Abort p.

(** [while ((opt = getopt (...)) != -1) switch (opt) ...], over the results
    [getopt] gives before it returns [-1]. *)
Fixpoint option_loop (results : list getopt_result) (p : process) : flow :=
  match results with
  | [] => Continue p
  | r :: rest =>
      match option_case r p with
      | Continue p' => option_loop rest p'
      | stopped => stopped
      end
  end.

(** [main] at its start. *)
Definition start : process :=
  {| cfg := config.fresh; default_configs := true; cout := ""; cerr := "" |}.

(** The end of [main], from the assignment of what [realpath] returned:
    the defaults are added unless [-n] was given, and the script is written
    to a file opened anew. *)
Definition write_script (folder_res : string) (p : process) : stream_result :=
  let c := config.set_folder folder_res (cfg p) in
  let c := if default_configs p then config.add_default_configs c else c in
  config.write_activate_script c "".

End main.

(** ** Vocabulary for the callers *)

(** The six lists of suffixes, in the order the script uses them. *)
Definition all_suffixes (c : config.config) : list string :=
  config.executable_suffixes c ++ config.include_suffixes c
  ++ config.info_suffixes c ++ config.library_suffixes c
  ++ config.manpage_suffixes c ++ config.pkg_config_suffixes c.

(** An insertion that returns exactly when [P] holds, whatever the stream
    held before. *)
Definition returns_iff (a : inserter) (P : Prop) : Prop :=
  ∀ stream, (∃ stream', a stream = Written stream') ↔ P.

(** The stream an insertion leaves. *)
Definition stream_of (r : stream_result) : string :=
  match r with
  | Written stream => stream
  | Raised _ stream => stream
  | Crashed stream => stream
  end.

(** An insertion that keeps what the stream held. *)
Definition grows (a : inserter) : Prop :=
  ∀ stream, ∃ written, stream_of (a stream) = stream +:+ written.

(** The arguments given with one option letter, in the order of the
    command line. *)
Fixpoint optargs_of (letter : ascii) (results : list getopt_result) : list string :=
  match results with
  | [] => []
  | r :: rest =>
      if (opt r =? letter)%char then optarg r :: optargs_of letter rest
      else optargs_of letter rest
  end.

(** The characters [getopt] can return for the option string of [main]:
    its letters, ['?'] and [':']. *)
Definition getopt_letters : string := "DeEhiIlmnpPrv?:".

#[local] Arguments Ascii.eqb : simpl never.
#[local] Arguments Nat.leb : simpl never.

(** Unfolds the helpers and the monad in the goal. *)
Ltac run :=
  unfold case_dollar, case_open, case_close, case_default, case_name,
    pop, lookup, write, write_str, push, when, gets, set_after_dollar,
    bind, ret, throw, is_braced, is_unbraced;
  simpl.

(** ** Strings *)

Lemma string_app_nil_l (s : string) : "" +:+ s = s.
Proof. reflexivity. Qed.

Lemma string_app_String (c : ascii) (s t : string) :
  String c s +:+ t = String c (s +:+ t).
Proof. reflexivity. Qed.

Lemma string_app_nil_r (s : string) : s +:+ "" = s.
Proof.
  induction s as [|c s IH]; [reflexivity|].
  by rewrite string_app_String, IH.
Qed.

Lemma string_app_assoc (s t u : string) : (s +:+ t) +:+ u = s +:+ (t +:+ u).
Proof.
  induction s as [|c s IH]; [reflexivity|].
  by rewrite !string_app_String, IH.
Qed.

Lemma push_back_app (s t : string) (c : ascii) :
  push_back s c +:+ t = s +:+ String c t.
Proof. unfold push_back. by rewrite string_app_assoc. Qed.

Lemma string_mem_app (c : ascii) (s t : string) :
  string_mem c (s +:+ t) = string_mem c s || string_mem c t.
Proof.
  induction s as [|d s IH]; [reflexivity|].
  rewrite string_app_String. simpl. rewrite IH. by rewrite orb_assoc.
Qed.

(** ** The cases of the [switch] *)

Lemma switch_dollar m : switch m "$" = case_dollar m.
Proof. reflexivity. Qed.

Lemma switch_open m : switch m "{" = case_open m.
Proof. reflexivity. Qed.

Lemma switch_close m : switch m "}" = case_close m.
Proof. reflexivity. Qed.

Lemma switch_name m ch : is_name_char ch = true → switch m ch = case_name ch.
Proof.
  intros Hn. unfold switch.
  destruct (ch =? "$")%char eqn:E1;
    [apply Ascii.eqb_eq in E1; subst; discriminate Hn|].
  destruct (ch =? "{")%char eqn:E2;
    [apply Ascii.eqb_eq in E2; subst; discriminate Hn|].
  destruct (ch =? "}")%char eqn:E3;
    [apply Ascii.eqb_eq in E3; subst; discriminate Hn|].
  by rewrite Hn.
Qed.

Lemma switch_other m ch : is_other_char ch = true → switch m ch = case_default m ch.
Proof.
  unfold is_other_char, switch. intros H.
  repeat (apply andb_prop in H as [H ?]).
  repeat match goal with
         | H : negb ?b = true |- _ => apply negb_true_iff in H; rewrite H
         end.
  reflexivity.
Qed.

(** Every character is handled by one of the five cases. *)
Lemma classify (ch : ascii) : char_class ch.
Proof.
  destruct (ch =? "$")%char eqn:E1; [apply Ascii.eqb_eq in E1; by apply class_dollar|].
  destruct (ch =? "{")%char eqn:E2; [apply Ascii.eqb_eq in E2; by apply class_open|].
  destruct (ch =? "}")%char eqn:E3; [apply Ascii.eqb_eq in E3; by apply class_close|].
  destruct (is_name_char ch) eqn:E4; [by apply class_name|].
  apply class_other. unfold is_other_char. by rewrite E1, E2, E3, E4.
Qed.

(** ** Running the helpers *)

Lemma write_str_String c s st :
  write_str (String c s) st = (write c >>> write_str s) st.
Proof.
  destruct st as [ad [|[b t] below] out]; run; by rewrite push_back_app.
Qed.

Lemma write_str_empty st : write_str "" st = Returned () st.
Proof.
  destruct st as [ad [|[b t] below] out]; run; by rewrite string_app_nil_r.
Qed.

Lemma scan_app m s t st : scan m (s +:+ t) st = (scan m s >>> scan m t) st.
Proof.
  revert st. induction s as [|c s IH]; intros st; [reflexivity|].
  rewrite string_app_String. simpl. unfold bind.
  destruct (switch m c st); [apply IH|done..].
Qed.

(** Literal text: with no pending dollar and no unbraced entry on top, text
    without ['$'] (and, inside braces, without ['}']) goes to the sink
    unchanged. *)
Lemma scan_text m s st :
  after_dollar st = false →
  is_unbraced st = false →
  string_mem "$" s = false →
  (is_braced st = true → string_mem "}" s = false) →
  scan m s st = write_str s st.
Proof.
  revert st. induction s as [|c s IH]; intros st Had Hu Hd Hc.
  { simpl. by rewrite write_str_empty. }
  rewrite write_str_String. simpl in Hd. apply orb_false_elim in Hd as [Hd1 Hd2].
  assert (Hstep : switch m c st = write c st).
  { destruct st as [ad stk out]. simpl in Had. subst ad.
    unfold is_unbraced in Hu. unfold is_braced in Hc. simpl in Hu, Hc.
    destruct (classify c) as [->| ->| ->|Hn|Ho].
    - discriminate Hd1.
    - rewrite switch_open. run. by rewrite Hu.
    - rewrite switch_close. destruct stk as [|[[] t] below]; try done.
      specialize (Hc eq_refl). discriminate Hc.
    - rewrite (switch_name _ _ Hn). by run.
    - rewrite (switch_other _ _ Ho). run. by rewrite Hu. }
  simpl. unfold bind. rewrite Hstep.
  destruct st as [ad [|[b t] below] out]; simpl in Had; subst ad;
    unfold write; simpl.
  - by apply IH.
  - apply IH; try done.
    intros Hb. apply Hc in Hb. simpl in Hb. by apply orb_false_elim in Hb as [_ ?].
Qed.

(** ** [pop] and the loop that empties the stack *)

Lemma pop_cons m ad top below out :
  pop m {| after_dollar := ad; stack := top :: below; output := out |} =
  match m !! contents top with
  | Some value =>
      write_str value {| after_dollar := ad; stack := below; output := out |}
  | None =>
      Thrown (UnknownVariable (contents top))
        {| after_dollar := ad; stack := below; output := out |}
  end.
Proof. run. by destruct (m !! contents top). Qed.

Lemma write_str_braceds v st st' :
  write_str v st = Returned () st' →
  after_dollar st' = after_dollar st ∧
  map braced (stack st') = map braced (stack st).
Proof.
  destruct st as [ad [|[b t] below] out]; run; intros [= <-]; done.
Qed.

(** A [pop] that returns has removed exactly the top entry; the entries
    below keep their kind. *)
Lemma pop_braceds m st st' :
  pop m st = Returned () st' →
  after_dollar st' = after_dollar st ∧
  map braced (stack st') = tail (map braced (stack st)).
Proof.
  destruct st as [ad [|top below] out]; [done|].
  rewrite pop_cons. destruct (m !! contents top); [|done].
  intros H. apply write_str_braceds in H. done.
Qed.

Lemma pop_length m st st' :
  pop m st = Returned () st' → length (stack st) = S (length (stack st')).
Proof.
  destruct st as [ad [|top below] out]; [done|].
  intros H. apply pop_braceds in H as [_ H]. simpl in H.
  apply (f_equal length) in H. rewrite !length_map in H. simpl. lia.
Qed.

Lemma drain_loop_fuel m n st :
  length (stack st) ≤ n →
  drain_loop m n st = drain_loop m (length (stack st)) st.
Proof.
  revert st. induction n as [|n IH]; intros st Hn.
  { by replace (length (stack st)) with 0 by lia. }
  destruct st as [ad [|top below] out]; [done|].
  simpl in *. unfold bind, gets.
  destruct (is_braced _); [done|].
  destruct (pop m _) as [[] st'|e st'|st'] eqn:Hp; [|done..].
  apply pop_length in Hp as Hl. simpl in Hl.
  rewrite IH by lia. by replace (length below) with (length (stack st')) by lia.
Qed.

(** The loop, one iteration at a time. *)
Lemma drain_unfold m st :
  drain m st =
  match stack st with
  | [] => Returned () st
  | top :: _ =>
      if braced top then Thrown UnterminatedBracedVariable st
      else (pop m >>> drain m) st
  end.
Proof.
  unfold drain at 1. destruct st as [ad [|top below] out]; [done|].
  simpl. unfold bind, gets, is_braced. simpl.
  destruct (braced top); [done|].
  destruct (pop m _) as [[] st'|e st'|st'] eqn:Hp; [|done..].
  apply pop_length in Hp as Hl. simpl in Hl.
  unfold drain. by replace (length (stack st')) with (length below) by lia.
Qed.

(** No [assert] fails: [pop] is only called on a stack that is not empty. *)
Lemma switch_not_aborted m ch st st' : switch m ch st ≠ Aborted st'.
Proof.
  destruct st as [ad stk out].
  destruct (classify ch) as [->| ->| ->|Hn|Ho];
    [rewrite switch_dollar|rewrite switch_open|rewrite switch_close
    |rewrite (switch_name _ _ Hn)|rewrite (switch_other _ _ Ho)];
    destruct ad, stk as [|[[] t] [|[b' t'] below']]; run;
    repeat (case_match; simpl); try done.
Qed.

Lemma scan_not_aborted m s st st' : scan m s st ≠ Aborted st'.
Proof.
  revert st. induction s as [|c s IH]; intros st; [done|].
  simpl. unfold bind. destruct (switch m c st) eqn:Hsw; try done.
  by apply switch_not_aborted in Hsw.
Qed.

Lemma drain_not_aborted m st st' : drain m st ≠ Aborted st'.
Proof.
  remember (length (stack st)) as n eqn:Hn. revert st Hn.
  induction n as [|n IH]; intros st Hn; rewrite drain_unfold;
    destruct st as [ad [|top below] out]; simpl in *; try done.
  destruct (braced top); [done|]. unfold bind.
  destruct (pop m _) as [[] st1|e st1|st1] eqn:Hp; try done.
  - apply pop_length in Hp. simpl in Hp. apply IH. lia.
  - rewrite pop_cons in Hp. destruct (m !! contents top); [|done].
    by destruct below as [|[] ?].
Qed.

(** ** Braced references *)

Lemma plain_spec s :
  plain s = true ↔ string_mem "$" s = false ∧ string_mem "}" s = false.
Proof.
  unfold plain. rewrite andb_true_iff, !negb_true_iff. done.
Qed.

(** Text written while a braced entry is on top is added to its name. *)
Lemma scan_text_braced m s name below out :
  plain s = true →
  scan m s {| after_dollar := false;
              stack := {| braced := true; contents := name |} :: below;
              output := out |} =
  Returned () {| after_dollar := false;
                 stack := {| braced := true; contents := name +:+ s |} :: below;
                 output := out |}.
Proof.
  intros [Hd Hc]%plain_spec. by rewrite scan_text.
Qed.

(** ["${"] with no pending dollar and no unbraced entry on top: a braced
    entry is pushed, unless 1024 entries are already there. *)
Lemma scan_dollar_open m rest stk out :
  is_unbraced {| after_dollar := false; stack := stk; output := out |} = false →
  scan m ("${" +:+ rest) {| after_dollar := false; stack := stk; output := out |} =
  if 1024 <=? length stk
  then Thrown RecursionLimitExceeded
         {| after_dollar := false; stack := stk; output := out |}
  else scan m rest {| after_dollar := false;
                      stack := {| braced := true; contents := "" |} :: stk;
                      output := out |}.
Proof.
  intros Hu. unfold is_unbraced in Hu. simpl in Hu.
  change ("${" +:+ rest) with (String "$" (String "{" rest)).
  cbn [scan]. rewrite switch_dollar, switch_open. run. rewrite Hu. simpl.
  by destruct (1024 <=? length stk).
Qed.

(** ['}'] with no pending dollar and a braced entry on top resolves it. *)
Lemma scan_close m rest name below out :
  scan m (String "}" rest)
    {| after_dollar := false;
       stack := {| braced := true; contents := name |} :: below;
       output := out |} =
  (pop m >>> scan m rest)
    {| after_dollar := false;
       stack := {| braced := true; contents := name |} :: below;
       output := out |}.
Proof. cbn [scan]. rewrite switch_close. reflexivity. Qed.

Lemma resolve_nest_cons m p q inner core :
  resolve_nest m ((p, q) :: inner) core =
  match resolve_nest m inner core with
  | Some v => m !! (p +:+ v +:+ q)
  | None => None
  end.
Proof. reflexivity. Qed.

Lemma scan_nest m layers core st v :
  after_dollar st = false →
  is_unbraced st = false →
  forallb plain_layer layers = true →
  plain core = true →
  length (stack st) + length layers ≤ 1024 →
  resolve_nest m layers core = Some v →
  scan m (nest layers core) st = write_str v st.
Proof.
  revert st v. induction layers as [|[p q] inner IH]; intros st v Had Hu Hl Hc Hn Hr.
  { simpl in Hr. injection Hr as <-. apply plain_spec in Hc as [? ?].
    by apply scan_text. }
  destruct st as [ad stk out]. simpl in Had. subst ad.
  rewrite resolve_nest_cons in Hr.
  destruct (resolve_nest m inner core) as [v'|] eqn:Hr'; [|done].
  simpl in Hl. apply andb_prop in Hl as [Hpq Hl].
  unfold plain_layer in Hpq. simpl in Hpq. apply andb_prop in Hpq as [Hp Hq].
  simpl in Hn.
  cbn [nest]. rewrite scan_dollar_open by done.
  destruct (1024 <=? length stk) eqn:Hlim; [apply Nat.leb_le in Hlim; lia|].
  rewrite scan_app. unfold bind at 1. rewrite scan_text_braced by done.
  rewrite scan_app. unfold bind at 1.
  rewrite (IH _ v') by (try done; simpl; lia).
  cbn [write_str stack braced contents after_dollar output].
  rewrite scan_app. unfold bind at 1. rewrite scan_text_braced by done.
  rewrite scan_close. unfold bind. rewrite pop_cons.
  cbn [contents]. rewrite string_app_nil_l, string_app_assoc, Hr.
  by destruct (write_str v _) as [[] ?|? ?|?].
Qed.

Lemma string_repeat_succ_r s n : string_repeat s (S n) = string_repeat s n +:+ s.
Proof.
  induction n as [|n IH]; [simpl; by rewrite string_app_nil_r|].
  change (string_repeat s (S (S n))) with (s +:+ string_repeat s (S n)).
  rewrite IH at 1. by rewrite <- string_app_assoc.
Qed.

(** [n] opening sequences push [n] empty braced entries. *)
Lemma scan_opens m n rest stk out :
  is_unbraced {| after_dollar := false; stack := stk; output := out |} = false →
  length stk + n ≤ 1024 →
  scan m (string_repeat "${" n +:+ rest)
    {| after_dollar := false; stack := stk; output := out |} =
  scan m rest
    {| after_dollar := false;
       stack := replicate n {| braced := true; contents := "" |} ++ stk;
       output := out |}.
Proof.
  revert stk. induction n as [|n IH]; intros stk Hu Hn; [done|].
  cbn [string_repeat]. rewrite string_app_assoc, scan_dollar_open by done.
  destruct (1024 <=? length stk) eqn:Hlim; [apply Nat.leb_le in Hlim; lia|].
  rewrite IH by (try done; simpl; lia).
  by rewrite replicate_S_end, <- app_assoc.
Qed.

(** ** One call, from the scan to its result *)

Lemma expand_scan_returned m t st :
  scan m t (initial "") = Returned () st →
  expand t m = observe (drain m st).
Proof.
  intros H. unfold expand, operator_shl, substitute_vars, bind. simpl.
  by rewrite H.
Qed.

Lemma expand_scan_thrown m t e st :
  scan m t (initial "") = Thrown e st → expand t m = Failed e.
Proof.
  intros H. unfold expand, operator_shl, substitute_vars, bind. simpl.
  by rewrite H.
Qed.

(** The loop never has more than 1024 entries on its stack. *)
Lemma switch_depth m ch st st' :
  length (stack st) ≤ 1024 →
  switch m ch st = Returned () st' →
  length (stack st') ≤ 1024.
Proof.
  intros Hd.
  assert (Hpush : ∀ b s s', length (stack s) ≤ 1024 →
            push b s = Returned () s' → length (stack s') ≤ 1024).
  { intros b s s' Hs. unfold push.
    destruct (1024 <=? length (stack s)) eqn:Hlim; [done|].
    apply Nat.leb_gt in Hlim. intros [= <-]. simpl. lia. }
  assert (Hwrite : ∀ c s s', write c s = Returned () s' →
            length (stack s') = length (stack s)).
  { intros c [ad [|[b t] below] out] s'; run; by intros [= <-]. }
  assert (Hpop : ∀ s s', pop m s = Returned () s' →
            length (stack s') ≤ length (stack s)).
  { intros s s' H%pop_length. lia. }
  assert (Hset : ∀ b s, length (stack s) =
            length (stack {| after_dollar := b; stack := stack s; output := output s |}))
    by done.
  destruct (classify ch) as [->| ->| ->|Hn|Ho];
    [rewrite switch_dollar|rewrite switch_open|rewrite switch_close
    |rewrite (switch_name _ _ Hn)|rewrite (switch_other _ _ Ho)];
    unfold case_dollar, case_open, case_close, case_default, case_name,
      when, gets, set_after_dollar, bind, ret, throw;
    repeat (case_match; try done); intros; simplify_eq;
    repeat match goal with a : () |- _ => destruct a end;
    repeat match goal with
           | H : push _ _ = Returned _ _ |- _ => apply Hpush in H; [|simpl; lia]
           | H : write _ _ = Returned _ _ |- _ => apply Hwrite in H
           | H : pop _ _ = Returned _ _ |- _ => apply Hpop in H
           end; simpl in *; try lia.
Qed.

Lemma reachable_depth m st : reachable m st → length (stack st) ≤ 1024.
Proof.
  intros (consumed & out & H).
  assert (G : ∀ s st0, length (stack st0) ≤ 1024 →
            scan m s st0 = Returned () st → length (stack st) ≤ 1024).
  { clear. induction s as [|c s IH]; intros st0 H0; simpl.
    - unfold ret. by intros [= <-].
    - unfold bind. destruct (switch m c st0) as [[] st1|?|?] eqn:Hsw; [|done..].
      apply IH. by eapply switch_depth. }
  apply (G consumed (initial out)); [simpl; lia|done].
Qed.

(** The [assert] in [pop] never fails in a call. *)
Lemma substitute_vars_not_aborted m t out st :
  substitute_vars t out m ≠ Aborted st.
Proof.
  unfold substitute_vars, bind.
  destruct (scan m t (initial out)) as [[] st1|e st1|st1] eqn:Hs; [|done|].
  - apply drain_not_aborted.
  - by apply scan_not_aborted in Hs.
Qed.

Lemma expand_not_assertion_failed m t : expand t m ≠ AssertionFailed.
Proof.
  unfold expand, operator_shl, observe. cbn [input variables].
  destruct (substitute_vars t "" m) eqn:H; try done.
  by apply substitute_vars_not_aborted in H.
Qed.

(** Some expansions, as the code computes them. *)
Example expand_escaped_dollar : expand "$$" ∅ = Expanded "$".
Proof. reflexivity. Qed.

Example expand_escaped_dollars : expand "$$$$" ∅ = Expanded "$$".
Proof. reflexivity. Qed.

Example expand_braced_then_text :
  expand "${FOO}baz" {[ "FOO" := "bar" ]} = Expanded "barbaz".
Proof. reflexivity. Qed.

Example expand_missing : expand "${MISSING}" ∅ = Failed (UnknownVariable "MISSING").
Proof. reflexivity. Qed.

Lemma expand_nest m layers core v :
  length layers ≤ 1024 →
  forallb plain_layer layers = true →
  plain core = true →
  resolve_nest m layers core = Some v →
  expand (nest layers core) m = Expanded v.
Proof.
  intros Hn Hl Hc Hr.
  rewrite (expand_scan_returned m _
             {| after_dollar := false; stack := []; output := v |}); [done|].
  by rewrite (scan_nest m layers core (initial "") v).
Qed.

(** * The properties *)

(** C9. [expand] is the identity on text without a dollar: for every string
    [s] in which ['$'] does not occur and every mapping [m], the call
    succeeds and returns [s] unchanged. *)
Theorem expand_dollar_free (s : string) (m : gmap string string) :
  string_mem "$" s = false → expand s m = Expanded s.
Proof.
  intros Hd.
  rewrite (expand_scan_returned m s
             {| after_dollar := false; stack := []; output := s |}); [done|].
  by rewrite scan_text.
Qed.

Lemma expand_dollar_free_witness :
  string_mem "$" "a{b} c}d" = false ∧
  expand "a{b} c}d" {[ "b" := "x" ]} = Expanded "a{b} c}d".
Proof. split; [reflexivity|]. apply expand_dollar_free. reflexivity. Defined.

(** C5. Pushing an entry throws [RecursionLimitExceeded] exactly when the
    stack already holds 1024 entries (the loop never holds more); so a
    template that starts with 1025 nested ["${"] fails with that error,
    whatever follows, while a tower of at most 1024 nested braced
    references, each closed, with literal text around them, succeeds with
    the value of the outermost name as soon as every assembled name has an
    entry in the mapping; 1024 levels around one name are evaluated. *)
Theorem nesting_limit :
  (∀ m st b, reachable m st →
     (length (stack st) = 1024 ∧ push b st = Thrown RecursionLimitExceeded st) ∨
     (length (stack st) < 1024 ∧
      push b st =
      Returned () {| after_dollar := after_dollar st;
                     stack := {| braced := b; contents := "" |} :: stack st;
                     output := output st |})) ∧
  (∀ m rest,
     expand (string_repeat "${" 1025 +:+ rest) m = Failed RecursionLimitExceeded) ∧
  (∀ m layers core v,
     length layers ≤ 1024 →
     forallb plain_layer layers = true →
     plain core = true →
     resolve_nest m layers core = Some v →
     expand (nest layers core) m = Expanded v) ∧
  expand (string_repeat "${" 1024 +:+ "V" +:+ string_repeat "}" 1024)
    {[ "V" := "" ; "" := "" ]} = Expanded "".
Proof.
  split; [|split; [|split; [|vm_compute; reflexivity]]].
  - intros m st b Hr%reachable_depth. unfold push.
    destruct (1024 <=? length (stack st)) eqn:Hlim.
    + apply Nat.leb_le in Hlim. left. split; [lia|done].
    + apply Nat.leb_gt in Hlim. right. done.
  - intros m rest. rewrite string_repeat_succ_r, string_app_assoc.
    apply (expand_scan_thrown m _ _
             {| after_dollar := false;
                stack := replicate 1024 {| braced := true; contents := "" |} ++ [];
                output := "" |}).
    unfold initial. rewrite scan_opens; [|done|simpl; lia].
    rewrite scan_dollar_open by done.
    rewrite length_app, length_replicate. reflexivity.
  - apply expand_nest.
Qed.

Lemma nesting_limit_witness :
  length [("A", ""); ("B", "_"); ("", "")] ≤ 1024 ∧
  forallb plain_layer [("A", ""); ("B", "_"); ("", "")] = true ∧
  plain "C" = true ∧
  resolve_nest {[ "C" := "1"; "B1_" := "x"; "Ax" := "deep" ]}
    [("A", ""); ("B", "_"); ("", "")] "C" = Some "deep" ∧
  expand "${A${B${C}_}}" {[ "C" := "1"; "B1_" := "x"; "Ax" := "deep" ]} =
  Expanded "deep".
Proof.
  assert (H : length [("A", ""); ("B", "_"); ("", "")] ≤ 1024) by (simpl; lia).
  split; [exact H|]. split; [reflexivity|]. split; [reflexivity|].
  split; [reflexivity|].
  exact (proj1 (proj2 (proj2 nesting_limit))
           {[ "C" := "1"; "B1_" := "x"; "Ax" := "deep" ]}
           [("A", ""); ("B", "_"); ("", "")] "C" "deep"
           H eq_refl eq_refl eq_refl).
Defined.

(** C7. Nested references compose into the enclosing name: [pop] removes
    the top entry and appends the value found for its name to the contents
    of the entry that is now on top, or to the output when the stack has
    become empty.  In ["${A${B}}"] the value ["X"] of [B] thus completes the
    outer name to ["AX"], whose value is the result. *)
Theorem pop_writes_to_sink :
  (∀ m ad top below out value,
     m !! contents top = Some value →
     pop m {| after_dollar := ad; stack := top :: below; output := out |} =
     Returned ()
       match below with
       | [] => {| after_dollar := ad; stack := []; output := out +:+ value |}
       | next :: rest =>
           {| after_dollar := ad;
              stack := {| braced := braced next;
                          contents := contents next +:+ value |} :: rest;
              output := out |}
       end) ∧
  scan {[ "B" := "X"; "AX" := "hello" ]} "${A${B}" (initial "") =
    Returned () {| after_dollar := false;
                   stack := [{| braced := true; contents := "AX" |}];
                   output := "" |} ∧
  expand "${A${B}}" {[ "B" := "X"; "AX" := "hello" ]} = Expanded "hello".
Proof.
  split; [|split; reflexivity].
  intros m ad top below out value Hv. rewrite pop_cons, Hv.
  by destruct below.
Qed.

Lemma pop_writes_to_sink_witness :
  ({[ "B" := "X" ]} : gmap string string) !! "B" = Some "X" ∧
  pop {[ "B" := "X" ]}
    {| after_dollar := false;
       stack := [{| braced := true; contents := "B" |};
                 {| braced := true; contents := "A" |}];
       output := "" |} =
  Returned ()
    {| after_dollar := false;
       stack := [{| braced := true; contents := "AX" |}];
       output := "" |}.
Proof.
  split; [reflexivity|].
  exact (proj1 pop_writes_to_sink {[ "B" := "X" ]} false
           {| braced := true; contents := "B" |}
           [{| braced := true; contents := "A" |}] "" "X" eq_refl).
Defined.




(** ** The end of the input *)

Lemma existsb_braced_map (l1 l2 : list stack_entry) :
  map braced l1 = map braced l2 → existsb braced l1 = existsb braced l2.
Proof.
  revert l2. induction l1 as [|e1 l1 IH]; intros [|e2 l2]; simpl; try done.
  intros [= -> H]. by rewrite (IH l2).
Qed.

(** What the emptying loop can end with. *)
Lemma drain_outcome m st :
  match drain m st with
  | Returned _ st' => existsb braced (stack st) = false ∧ stack st' = []
  | Thrown e _ =>
      (e = UnterminatedBracedVariable ∧ existsb braced (stack st) = true) ∨
      (∃ key, e = UnknownVariable key)
  | Aborted _ => False
  end.
Proof.
  remember (length (stack st)) as n eqn:Hn. revert st Hn.
  induction n as [|n IH]; intros st Hn; rewrite drain_unfold;
    destruct st as [ad [|top below] out]; simpl in *; try done.
  destruct (braced top) eqn:Hb; [by left|]. unfold bind.
  destruct (pop m _) as [[] st1|e st1|st1] eqn:Hp.
  - apply pop_length in Hp as Hl. simpl in Hl.
    apply pop_braceds in Hp as [_ Hk]. simpl in Hk.
    apply existsb_braced_map in Hk.
    specialize (IH st1 ltac:(lia)). rewrite Hk in IH.
    destruct (drain m st1); [done| |done].
    destruct IH as [[-> ?]|?]; [left|right]; done.
  - rewrite pop_cons in Hp. destruct (m !! contents top).
    + by destruct below as [|[] ?].
    + injection Hp as <- _. right. by eexists.
  - rewrite pop_cons in Hp. destruct (m !! contents top); [|done].
    by destruct below as [|[] ?].
Qed.

(** The loop does not read [after_dollar]. *)
Lemma drain_after_dollar m ad ad' stk out :
  observe (drain m {| after_dollar := ad; stack := stk; output := out |}) =
  observe (drain m {| after_dollar := ad'; stack := stk; output := out |}).
Proof.
  remember (length stk) as n eqn:Hn. revert stk out Hn.
  induction n as [|n IH]; intros stk out Hn; rewrite !drain_unfold;
    destruct stk as [|top below]; simpl in *; try done.
  destruct (braced top); [done|]. unfold bind. rewrite !pop_cons.
  destruct (m !! contents top) as [v|]; [|done].
  injection Hn as Hn.
  destruct below as [|[b t] below]; unfold write_str; simpl.
  - apply (IH []); done.
  - apply (IH (_ :: below)); done.
Qed.

(** C6, amended.  At the end of the input the stack is emptied from the top:
    a braced entry on top throws [UnterminatedBracedVariable]; an unbraced
    entry on top is resolved by [pop], which throws [UnknownVariable] when
    its name has no value, and the loop goes on with the entries below.
    Hence the call returns only if no entry left on the stack is braced, and
    then every entry has been resolved; if some entry is braced the call
    fails, with [UnterminatedBracedVariable] or, when an unbraced entry above
    it does not resolve, with [UnknownVariable].  ["${UNCLOSED"] fails with
    [UnterminatedBracedVariable]; the unbraced ["$F"] is closed by the end
    of the input. *)
Theorem drain_top_first :
  (∀ m t st,
     scan m t (initial "") = Returned () st →
     expand t m = observe (drain m st)) ∧
  (∀ m st,
     drain m st =
     match stack st with
     | [] => Returned () st
     | top :: _ =>
         if braced top then Thrown UnterminatedBracedVariable st
         else (pop m >>> drain m) st
     end) ∧
  (∀ m st,
     match drain m st with
     | Returned _ st' => existsb braced (stack st) = false ∧ stack st' = []
     | Thrown e _ =>
         (e = UnterminatedBracedVariable ∧ existsb braced (stack st) = true) ∨
         (∃ key, e = UnknownVariable key)
     | Aborted _ => False
     end) ∧
  expand "${UNCLOSED" ∅ = Failed UnterminatedBracedVariable ∧
  expand "$F" {[ "F" := "bar" ]} = Expanded "bar".
Proof.
  split; [exact expand_scan_returned|].
  split; [exact drain_unfold|].
  split; [exact drain_outcome|].
  split; reflexivity.
Qed.

Lemma drain_top_first_witness :
  scan ∅ "${UN$C" (initial "") =
    Returned () {| after_dollar := true;
                   stack := [{| braced := false; contents := "C" |};
                             {| braced := true; contents := "UN" |}];
                   output := "" |} ∧
  expand "${UN$C" ∅ =
    observe (drain ∅ {| after_dollar := true;
                        stack := [{| braced := false; contents := "C" |};
                                  {| braced := true; contents := "UN" |}];
                        output := "" |}).
Proof.
  split; [reflexivity|].
  exact (proj1 drain_top_first ∅ "${UN$C" _ eq_refl).
Defined.

(** A braced entry is left on the stack at the end of ["${A$B"], and the
    call fails with [UnknownVariable], not with
    [UnterminatedBracedVariable]: the unbraced entry above it is resolved
    first. *)
Lemma drain_braced_below_counterexample :
  scan ∅ "${A$B" (initial "") =
    Returned () {| after_dollar := true;
                   stack := [{| braced := false; contents := "B" |};
                             {| braced := true; contents := "A" |}];
                   output := "" |} ∧
  expand "${A$B" ∅ = Failed (UnknownVariable "B") ∧
  expand "${A$B" ∅ ≠ Failed UnterminatedBracedVariable.
Proof. split; [reflexivity|]. split; [reflexivity|discriminate]. Qed.

(** C10, amended.  A trailing ['$'] that is not itself preceded by a pending
    dollar is dropped: when the scan of [t] ends with [after_dollar] false,
    the template [t] followed by ['$'] has the result of [t], success or
    failure alike.  The loop at the end of the input never reads
    [after_dollar]. *)
Theorem trailing_dollar_dropped (m : gmap string string) (t : string) (st : state) :
  scan m t (initial "") = Returned () st →
  after_dollar st = false →
  expand (t +:+ "$") m = expand t m.
Proof.
  intros Hs Had. rewrite (expand_scan_returned m t st Hs).
  unfold expand, operator_shl, substitute_vars. cbn [input variables].
  unfold bind at 1. rewrite scan_app. unfold bind at 1. rewrite Hs.
  cbn [scan]. rewrite switch_dollar.
  destruct st as [ad stk out]. simpl in Had. subst ad.
  rewrite (drain_unfold m {| after_dollar := false; stack := stk; output := out |}).
  unfold case_dollar, gets, set_after_dollar, is_unbraced, when, bind, ret.
  cbn [after_dollar stack output].
  destruct stk as [|[[] name] below]; cbn [negb braced].
  - reflexivity.
  - by rewrite drain_unfold.
  - destruct (pop m _) as [[] [ad1 stk1 out1]|e st1|st1] eqn:Hp; [|done..].
    cbn [after_dollar stack output]. apply drain_after_dollar.
Qed.

Lemma trailing_dollar_dropped_witness :
  scan {[ "V" := "1" ]} "a${V}$$b" (initial "") =
    Returned () {| after_dollar := false; stack := []; output := "a1$b" |} ∧
  expand "a${V}$$b$" {[ "V" := "1" ]} = expand "a${V}$$b" {[ "V" := "1" ]}.
Proof.
  split; [reflexivity|].
  exact (trailing_dollar_dropped {[ "V" := "1" ]} "a${V}$$b" _ eq_refl eq_refl).
Defined.

(** After a pending dollar the added ['$'] is not dropped: it completes the
    escape ["$$"] and is written. *)
Lemma trailing_dollar_counterexample :
  expand "$" ∅ = Expanded "" ∧
  expand ("$" +:+ "$") ∅ = Expanded "$" ∧
  ¬ (∀ t m r, expand t m = Expanded r → expand (t +:+ "$") m = Expanded r).
Proof.
  split; [reflexivity|]. split; [reflexivity|].
  intros H. specialize (H "$" ∅ "" eq_refl). discriminate H.
Qed.

(** ** The four exceptions are told apart by their messages *)

Lemma InvalidVariableStart_inj c c' :
  InvalidVariableStart c = InvalidVariableStart c' → c = c'.
Proof. by intros [= ->]. Qed.

Lemma UnknownVariable_not_invalid key c :
  UnknownVariable key ≠ InvalidVariableStart c.
Proof. discriminate. Qed.

Lemma RecursionLimitExceeded_not_invalid c :
  RecursionLimitExceeded ≠ InvalidVariableStart c.
Proof. discriminate. Qed.

Lemma Thrown_inj {A} e e' st st' :
  @Thrown A e st = Thrown e' st' → e = e' ∧ st = st'.
Proof. intros H. injection H as -> ->. done. Qed.

(** ** A dollar before a character that cannot start a variable *)

Lemma scan_invalid_start m s ch rest out :
  string_mem "$" s = false →
  is_other_char ch = true →
  scan m (s +:+ String "$" (String ch rest)) (initial out) =
  Thrown (InvalidVariableStart ch)
    {| after_dollar := true; stack := []; output := out +:+ s |}.
Proof.
  intros Hs Hc. rewrite scan_app. unfold bind.
  rewrite scan_text by done. cbn [write_str initial stack after_dollar output scan].
  rewrite switch_dollar, (switch_other _ _ Hc). reflexivity.
Qed.

(** [default] with no unbraced entry on top. *)
Lemma switch_invalid_iff m ch st c st' :
  is_unbraced st = false →
  switch m ch st = Thrown (InvalidVariableStart c) st' ↔
  after_dollar st = true ∧ is_other_char ch = true ∧ c = ch ∧ st' = st.
Proof.
  intros Hu. destruct st as [ad stk out].
  unfold is_unbraced in Hu. simpl in Hu. split.
  - destruct stk as [|[[] name] [|[b2 n2] below]]; try done;
      (destruct (classify ch) as [->| ->| ->|Hn|Ho];
        [rewrite switch_dollar|rewrite switch_open|rewrite switch_close
        |rewrite (switch_name _ _ Hn)|rewrite (switch_other _ _ Ho)]);
      destruct ad; run;
      repeat match goal with
             | |- context [1024 <=? ?n] => destruct (1024 <=? n)
             | |- context [m !! ?k] => destruct (m !! k)
             end; simpl; try done;
      intros [He <-]%Thrown_inj;
      first [ by apply UnknownVariable_not_invalid in He
            | by apply RecursionLimitExceeded_not_invalid in He
            | by apply InvalidVariableStart_inj in He as <- ].
  - intros (Had & Ho & -> & ->). simpl in Had. subst ad.
    rewrite (switch_other _ _ Ho). run. by rewrite Hu.
Qed.

(** C3, amended.  While no unbraced entry is on top of the stack, reading
    a character [ch] throws [InvalidVariableStart ch] exactly when
    [after_dollar] is set and [ch] is none of ['$'], ['{'], ['}'] and the
    name characters; so text without a dollar followed by ['$'] and such a
    character fails with that error, as ["$!"] does.  A ['}'] read after a
    pending dollar is no error: it clears [after_dollar] and is written,
    and ["$}"] expands to ["}"]. *)
Theorem invalid_variable_start :
  (∀ m ch st c st',
     is_unbraced st = false →
     switch m ch st = Thrown (InvalidVariableStart c) st' ↔
     after_dollar st = true ∧ is_other_char ch = true ∧ c = ch ∧ st' = st) ∧
  (∀ m s ch rest,
     string_mem "$" s = false → is_other_char ch = true →
     expand (s +:+ String "$" (String ch rest)) m =
     Failed (InvalidVariableStart ch)) ∧
  (∀ m st,
     after_dollar st = true →
     switch m "}" st = (set_after_dollar false >>> write "}") st) ∧
  expand "$!" ∅ = Failed (InvalidVariableStart "!") ∧
  expand "$}" ∅ = Expanded "}".
Proof.
  split; [exact switch_invalid_iff|].
  split; [|split; [|split; reflexivity]].
  - intros m s ch rest Hs Hc.
    eapply expand_scan_thrown. by apply scan_invalid_start.
  - intros m [ad stk out] Had. simpl in Had. subst ad.
    rewrite switch_close. unfold case_close, gets, bind. simpl.
    by rewrite andb_false_r.
Qed.

Lemma invalid_variable_start_witness :
  string_mem "$" "make " = false ∧ is_other_char "(" = true ∧
  expand "make $(CC)" {[ "CC" := "cc" ]} = Failed (InvalidVariableStart "(").
Proof.
  split; [reflexivity|]. split; [reflexivity|].
  exact (proj1 (proj2 invalid_variable_start) {[ "CC" := "cc" ]}
           "make " "("%char "CC)" eq_refl eq_refl).
Defined.

(** ['}'] is none of ['$'], ['{'] and the name characters, and yet ["$}"]
    does not fail. *)
Lemma invalid_variable_start_counterexample :
  ("}" =? "$")%char = false ∧ ("}" =? "{")%char = false ∧
  is_name_char "}" = false ∧
  expand "$}" ∅ = Expanded "}" ∧
  expand "$}" ∅ ≠ Failed (InvalidVariableStart "}").
Proof. repeat split; try reflexivity. discriminate. Qed.

(** C1.  What [default] does when an unbraced entry is on top: it resolves
    the entry and leaves the [switch], so the character that ended the name
    is not written.  Besides, the name characters do not clear
    [after_dollar], so each further name character opens an entry of its
    own.  ["$A-b"] with [A] bound to ["x"] therefore does not give
    ["x-b"]: the ['-'] is lost and ['b'] is looked up as a variable. *)
Theorem default_pops_and_breaks :
  (∀ m ch st,
     is_unbraced st = true → is_other_char ch = true →
     switch m ch st = pop m st) ∧
  (∀ ch st st',
     case_name ch st = Returned () st' → after_dollar st' = after_dollar st) ∧
  expand "$A-b" {[ "A" := "x" ]} = Failed (UnknownVariable "b") ∧
  expand "$A-" {[ "A" := "x" ]} = Expanded "x" ∧
  scan {[ "A}" := "x" ]} "$A}" (initial "") =
    Returned () {| after_dollar := false;
                   stack := [{| braced := false; contents := "A}" |}];
                   output := "" |} ∧
  expand "$A}-" {[ "A}" := "x" ]} = Expanded "x" ∧
  expand "$FOO" {[ "FOO" := "bar" ]} = Failed (UnknownVariable "O").
Proof.
  split; [|split; [|repeat split; reflexivity]].
  - intros m ch st Hu Ho. rewrite (switch_other _ _ Ho).
    unfold case_default, gets, bind. by rewrite Hu.
  - intros ch [ad stk out] st'. unfold case_name, gets, when, bind, push, ret.
    simpl. destruct ad; [destruct (1024 <=? _); [done|]|];
      destruct stk as [|[] ?]; unfold write; simpl; by intros [= <-].
Qed.

Lemma default_pops_and_breaks_witness :
  is_unbraced {| after_dollar := false;
                 stack := [{| braced := false; contents := "A}" |}];
                 output := "" |} = true ∧
  is_other_char "-" = true ∧
  switch {[ "A}" := "x" ]} "-"
    {| after_dollar := false;
       stack := [{| braced := false; contents := "A}" |}];
       output := "" |} =
  pop {[ "A}" := "x" ]}
    {| after_dollar := false;
       stack := [{| braced := false; contents := "A}" |}];
       output := "" |}.
Proof.
  split; [reflexivity|]. split; [reflexivity|].
  exact (proj1 default_pops_and_breaks {[ "A}" := "x" ]} "-"%char
           {| after_dollar := false;
              stack := [{| braced := false; contents := "A}" |}];
              output := "" |} eq_refl eq_refl).
Defined.

(** ** The stream is only appended to *)

Section appends.

Variable m : gmap string string.

Lemma appends_ret {A} (a : A) : appends (ret a).
Proof. done. Qed.

Lemma appends_throw {A} e : appends (@throw A e).
Proof. done. Qed.

Lemma appends_bind {A B} (f : M A) (k : A → M B) :
  appends f → (∀ a, appends (k a)) → appends (bind f k).
Proof.
  intros Hf Hk before st. unfold bind. rewrite Hf.
  destruct (f st); simpl; [apply Hk|done..].
Qed.

Lemma appends_gets {A} (f : state → A) :
  (∀ before st, f (prepend before st) = f st) → appends (gets f).
Proof. intros Hf before st. unfold gets. simpl. by rewrite Hf. Qed.

Lemma appends_when c f : appends f → appends (when c f).
Proof. destruct c; [done|]. intros _. apply appends_ret. Qed.

Lemma appends_set_after_dollar b : appends (set_after_dollar b).
Proof. done. Qed.

Lemma appends_push b : appends (push b).
Proof. intros before st. unfold push. simpl. by destruct (1024 <=? _). Qed.

Lemma appends_write c : appends (write c).
Proof.
  intros before [ad [|[b t] below] out]; unfold write, prepend, push_back; simpl;
    by rewrite ?string_app_assoc.
Qed.

Lemma appends_write_str s : appends (write_str s).
Proof.
  intros before [ad [|[b t] below] out]; unfold write_str, prepend; simpl;
    by rewrite ?string_app_assoc.
Qed.

Lemma appends_lookup key : appends (lookup m key).
Proof. unfold lookup. destruct (m !! key); [apply appends_ret|apply appends_throw]. Qed.

Lemma appends_pop : appends (pop m).
Proof.
  intros before [ad [|top below] out]; [done|].
  unfold prepend. simpl. rewrite !pop_cons.
  destruct (m !! contents top); [|done].
  apply (appends_write_str _ before
           {| after_dollar := ad; stack := below; output := out |}).
Qed.

Lemma appends_case_name ch : appends (case_name ch).
Proof.
  apply appends_bind; [by apply appends_gets|]. intros ad.
  apply appends_bind; [apply appends_when, appends_push|].
  intros _. apply appends_write.
Qed.

Lemma appends_switch ch : appends (switch m ch).
Proof.
  unfold switch, case_dollar, case_open, case_close, case_default.
  repeat first
    [ progress intros
    | apply appends_bind
    | apply appends_gets; done
    | apply appends_when
    | apply appends_pop
    | apply appends_push
    | apply appends_write
    | apply appends_set_after_dollar
    | apply appends_throw
    | apply appends_case_name
    | match goal with |- appends (if ?c then _ else _) => destruct c end ].
Qed.

Lemma appends_scan s : appends (scan m s).
Proof.
  induction s as [|c s IH]; [apply appends_ret|].
  simpl. apply appends_bind; [apply appends_switch|done].
Qed.

Lemma appends_drain_loop n : appends (drain_loop m n).
Proof.
  induction n as [|n IH]; intros before st; [done|].
  destruct st as [ad [|top below] out]; [done|].
  cbn [drain_loop prepend stack].
  apply (appends_bind (gets is_braced)); [by apply appends_gets|].
  intros []; [apply appends_throw|].
  apply appends_bind; [apply appends_pop|done].
Qed.

Lemma appends_drain : appends (drain m).
Proof. intros before st. unfold drain. apply appends_drain_loop. Qed.

End appends.

Lemma substitute_vars_on_stream m t out :
  substitute_vars t out m = on_stream out (substitute_vars t "" m).
Proof.
  unfold substitute_vars.
  replace (initial out) with (prepend out (initial ""))
    by (unfold prepend, initial; simpl; by rewrite string_app_nil_r).
  apply appends_bind; [apply appends_scan|]. intros _. apply appends_drain.
Qed.

(** ** Nothing is taken back from the stream *)

Section keeps_output.

Variable m : gmap string string.

Lemma keeps_output_same {A} (f : M A) :
  (∀ st, output (final_state (f st)) = output st) → keeps_output f.
Proof. intros Hf st. exists "". by rewrite Hf, string_app_nil_r. Qed.

Lemma keeps_output_bind {A B} (f : M A) (k : A → M B) :
  keeps_output f → (∀ a, keeps_output (k a)) → keeps_output (bind f k).
Proof.
  intros Hf Hk st. unfold bind. destruct (Hf st) as [w1 Hw1].
  destruct (f st) as [a st1|e st1|st1]; simpl in Hw1; [|by exists w1..].
  destruct (Hk a st1) as [w2 Hw2]. exists (w1 +:+ w2).
  by rewrite Hw2, Hw1, string_app_assoc.
Qed.

Lemma keeps_output_when c f : keeps_output f → keeps_output (when c f).
Proof. destruct c; [done|]. intros _. by apply keeps_output_same. Qed.

Lemma keeps_output_push b : keeps_output (push b).
Proof.
  apply keeps_output_same. intros st. unfold push.
  by destruct (1024 <=? _).
Qed.

Lemma keeps_output_write c : keeps_output (write c).
Proof.
  intros [ad [|[b t] below] out]; unfold write; simpl.
  - by eexists.
  - exists "". by rewrite string_app_nil_r.
Qed.

Lemma keeps_output_write_str v : keeps_output (write_str v).
Proof.
  intros [ad [|[b t] below] out]; unfold write_str; simpl.
  - by eexists.
  - exists "". by rewrite string_app_nil_r.
Qed.

Lemma keeps_output_pop : keeps_output (pop m).
Proof.
  intros [ad [|top below] out].
  { exists "". simpl. by rewrite string_app_nil_r. }
  rewrite pop_cons. destruct (m !! contents top) as [v|].
  - apply (keeps_output_write_str v
             {| after_dollar := ad; stack := below; output := out |}).
  - exists "". simpl. by rewrite string_app_nil_r.
Qed.

Lemma keeps_output_case_name ch : keeps_output (case_name ch).
Proof.
  apply keeps_output_bind; [by apply keeps_output_same|]. intros ad.
  apply keeps_output_bind; [apply keeps_output_when, keeps_output_push|].
  intros _. apply keeps_output_write.
Qed.

Lemma keeps_output_switch ch : keeps_output (switch m ch).
Proof.
  unfold switch, case_dollar, case_open, case_close, case_default.
  repeat first
    [ progress intros
    | apply keeps_output_bind
    | apply keeps_output_when
    | apply keeps_output_pop
    | apply keeps_output_push
    | apply keeps_output_write
    | apply keeps_output_case_name
    | match goal with |- keeps_output (if ?c then _ else _) => destruct c end
    | by apply keeps_output_same ].
Qed.

Lemma keeps_output_scan s : keeps_output (scan m s).
Proof.
  induction s as [|c s IH]; [by apply keeps_output_same|].
  cbn [scan]. apply keeps_output_bind; [apply keeps_output_switch|done].
Qed.

Lemma keeps_output_drain_loop n : keeps_output (drain_loop m n).
Proof.
  induction n as [|n IH]; [by apply keeps_output_same|].
  intros [ad [|top below] out].
  { exists "". simpl. by rewrite string_app_nil_r. }
  cbn [drain_loop stack].
  apply (keeps_output_bind (gets is_braced)); [by apply keeps_output_same|].
  intros []; [by apply keeps_output_same|].
  apply keeps_output_bind; [apply keeps_output_pop|done].
Qed.

Lemma keeps_output_drain : keeps_output (drain m).
Proof. intros st. unfold drain. apply keeps_output_drain_loop. Qed.

(** A case of the [switch] that throws has written nothing. *)
Lemma switch_thrown_output c st e st' :
  switch m c st = Thrown e st' → output st' = output st.
Proof.
  destruct st as [ad stk out].
  destruct stk as [|[b t] [|[b2 t2] below]];
    (destruct (classify c) as [->| ->| ->|Hn|Ho];
      [rewrite switch_dollar|rewrite switch_open|rewrite switch_close
      |rewrite (switch_name _ _ Hn)|rewrite (switch_other _ _ Ho)]);
    destruct ad; try destruct b; run;
    repeat match goal with
           | |- context [1024 <=? ?n] => destruct (1024 <=? n)
           | |- context [m !! ?k] => destruct (m !! k)
           end; simpl; try done;
    by intros [_ <-]%Thrown_inj.
Qed.

(** Neither has the loop at the end of the input, when it throws: what it
    resolved before went into an entry that was still open. *)
Lemma drain_thrown_output st e st' :
  drain m st = Thrown e st' → output st' = output st.
Proof.
  remember (length (stack st)) as n eqn:Hn. revert st Hn.
  induction n as [|n IH]; intros st Hn; rewrite drain_unfold;
    destruct st as [ad [|top below] out]; simpl in *; try done.
  destruct (braced top); [by intros [_ <-]%Thrown_inj|].
  unfold bind. rewrite pop_cons.
  destruct (m !! contents top) as [v|]; [|by intros [_ <-]%Thrown_inj].
  destruct below as [|[b2 t2] below]; unfold write_str; simpl.
  - by rewrite drain_unfold.
  - intros H. apply IH in H; [done|simpl in *; lia].
Qed.

(** A call that throws: where it stopped and what it had written. *)
Lemma scan_drain_thrown t st0 e stf :
  (scan m t >>> drain m) st0 = Thrown e stf →
  ∃ s rest st,
    t = s +:+ rest ∧
    scan m s st0 = Returned () st ∧
    output stf = output st ∧
    ((rest = "" ∧ drain m st = Thrown e stf) ∨
     (∃ c rest', rest = String c rest' ∧ switch m c st = Thrown e stf)).
Proof.
  revert st0. induction t as [|c t IH]; intros st0.
  - unfold bind. simpl. intros H. exists "", "", st0.
    split; [done|]. split; [done|].
    split; [by apply drain_thrown_output in H|]. by left.
  - unfold bind. cbn [scan]. unfold bind.
    destruct (switch m c st0) as [[] st1|e1 st1|st1] eqn:Hsw.
    + intros H. destruct (IH st1 H) as (s & rest & st & -> & Hs & Hout & Hend).
      exists (String c s), rest, st. split; [done|].
      split; [|done]. cbn [scan]. unfold bind. by rewrite Hsw.
    + intros [<- <-]%Thrown_inj. exists "", (String c t), st0.
      split; [done|]. split; [done|].
      split; [by apply switch_thrown_output in Hsw|].
      right. by exists c, t.
    + done.
Qed.

End keeps_output.

(** C2, amended.  The call writes to the stream as it scans and takes
    nothing back: however it ends, with an exception too, the stream holds
    what it held before followed by what the call has written so far.
    Whatever the scan of a part of the template has written is still on
    the stream when the call ends, by whichever exception; and a call that
    throws leaves on the stream exactly what the scan had written up to
    the character whose case threw (or up to the end of the input, when
    the loop that empties the stack threw).  A failing call thus leaves
    its partial output on the stream; text without a dollar followed by
    ['$'] and a character that cannot start a variable is on the stream
    when [InvalidVariableStart] is thrown. *)
Theorem output_kept_on_failure :
  (∀ m t out,
     operator_shl out {| input := t; variables := m |} =
     on_stream out (operator_shl "" {| input := t; variables := m |})) ∧
  (∀ m s ch rest out,
     string_mem "$" s = false → is_other_char ch = true →
     operator_shl out {| input := s +:+ String "$" (String ch rest);
                         variables := m |} =
     Thrown (InvalidVariableStart ch)
       {| after_dollar := true; stack := []; output := out +:+ s |}) ∧
  (∀ m s rest out st,
     scan m s (initial out) = Returned () st →
     ∃ written,
       output (final_state
                 (operator_shl out {| input := s +:+ rest; variables := m |})) =
       output st +:+ written) ∧
  (∀ m t out e stf,
     operator_shl out {| input := t; variables := m |} = Thrown e stf →
     ∃ s rest st,
       t = s +:+ rest ∧
       scan m s (initial out) = Returned () st ∧
       output stf = output st ∧
       ((rest = "" ∧ drain m st = Thrown e stf) ∨
        (∃ c rest', rest = String c rest' ∧ switch m c st = Thrown e stf))).
Proof.
  split; [|split; [|split]].
  - intros m t out. apply substitute_vars_on_stream.
  - intros m s ch rest out Hs Hc.
    unfold operator_shl, substitute_vars, bind. cbn [input variables].
    by rewrite scan_invalid_start.
  - intros m s rest out st Hs.
    unfold operator_shl, substitute_vars. cbn [input variables].
    unfold bind at 1. rewrite scan_app. unfold bind at 1. rewrite Hs.
    apply (keeps_output_bind (scan m rest) (λ _, drain m));
      [apply keeps_output_scan|intros _; apply keeps_output_drain].
  - intros m t out e stf. apply scan_drain_thrown.
Qed.

Lemma output_kept_on_failure_witness :
  operator_shl "# header " {| input := "PATH=${root}/bin"; variables := ∅ |} =
    Thrown (UnknownVariable "root")
      {| after_dollar := false; stack := []; output := "# header PATH=" |} ∧
  ∃ s rest st,
    "PATH=${root}/bin" = s +:+ rest ∧
    scan ∅ s (initial "# header ") = Returned () st ∧
    output {| after_dollar := false; stack := []; output := "# header PATH=" |} =
      output st ∧
    ((rest = "" ∧
      drain ∅ st =
      Thrown (UnknownVariable "root")
        {| after_dollar := false; stack := []; output := "# header PATH=" |}) ∨
     (∃ c rest',
        rest = String c rest' ∧
        switch ∅ c st =
        Thrown (UnknownVariable "root")
          {| after_dollar := false; stack := []; output := "# header PATH=" |})).
Proof.
  split; [reflexivity|].
  exact (proj2 (proj2 (proj2 output_kept_on_failure)) ∅ "PATH=${root}/bin"
           "# header " (UnknownVariable "root")
           {| after_dollar := false; stack := []; output := "# header PATH=" |}
           eq_refl).
Defined.

(** The call on ["ab$!"] throws after ["ab"] has been written to the
    stream, and ["ab"] is still there. *)
Lemma output_discarded_counterexample :
  operator_shl "" {| input := "ab$!"; variables := ∅ |} =
    Thrown (InvalidVariableStart "!")
      {| after_dollar := true; stack := []; output := "ab" |} ∧
  output (final_state (operator_shl "" {| input := "ab$!"; variables := ∅ |})) ≠ "".
Proof. split; [reflexivity|discriminate]. Qed.

(** ** What the entries of the stack hold *)

Lemma starts_with_name_char_app s t :
  starts_with_name_char s = true → starts_with_name_char (s +:+ t) = true.
Proof. by destruct s. Qed.

Lemma write_well_started c st st' :
  Forall well_started (stack st) →
  write c st = Returned () st' →
  Forall well_started (stack st').
Proof.
  destruct st as [ad [|[b t] below] out]; unfold write; simpl;
    intros H [= <-]; simpl; [done|].
  inversion_clear H as [|? ? Ht Hb]. constructor; [|done].
  intros Hb'. by apply starts_with_name_char_app, Ht.
Qed.

Lemma write_str_well_started v st st' :
  Forall well_started (stack st) →
  write_str v st = Returned () st' →
  Forall well_started (stack st').
Proof.
  destruct st as [ad [|[b t] below] out]; unfold write_str; simpl;
    intros H [= <-]; simpl; [done|].
  inversion_clear H as [|? ? Ht Hb]. constructor; [|done].
  intros Hb'. by apply starts_with_name_char_app, Ht.
Qed.

Lemma pop_well_started m st st' :
  Forall well_started (stack st) →
  pop m st = Returned () st' →
  Forall well_started (stack st').
Proof.
  destruct st as [ad [|top below] out]; [done|].
  rewrite pop_cons. intros H. inversion_clear H as [|? ? _ Hb].
  destruct (m !! contents top); [|done].
  by apply write_str_well_started.
Qed.

Lemma push_braced_well_started st st' :
  Forall well_started (stack st) →
  push true st = Returned () st' →
  Forall well_started (stack st').
Proof.
  unfold push. destruct (1024 <=? _); [done|]. intros H [= <-]. simpl.
  by constructor.
Qed.

(** An unbraced entry is pushed only to receive the name character that
    was just read. *)
Lemma case_name_well_started ch st st' :
  (after_dollar st = true → is_name_char ch = true) →
  Forall well_started (stack st) →
  case_name ch st = Returned () st' →
  Forall well_started (stack st').
Proof.
  intros Hch H. unfold case_name, gets, when, bind.
  destruct (after_dollar st) eqn:Had; [|apply write_well_started; done].
  unfold push. destruct (1024 <=? _); [done|].
  unfold write. simpl. intros [= <-]. simpl.
  constructor; [|done]. intros _. simpl. by apply Hch.
Qed.

Lemma switch_well_started m ch st st' :
  Forall well_started (stack st) →
  switch m ch st = Returned () st' →
  Forall well_started (stack st').
Proof.
  intros H.
  destruct (classify ch) as [->| ->| ->|Hn|Ho].
  - rewrite switch_dollar. unfold case_dollar, gets, when, bind.
    destruct (after_dollar st).
    + by apply write_well_started.
    + destruct (is_unbraced st); [|by intros [= <-]].
      destruct (pop m st) as [[] st1|?|?] eqn:Hp; [|done..].
      intros [= <-]. simpl. by eapply pop_well_started.
  - rewrite switch_open. unfold case_open, gets, when, bind.
    destruct (after_dollar st).
    + by apply push_braced_well_started.
    + destruct (is_unbraced st); [|by apply write_well_started].
      destruct (pop m st) as [[] st1|?|?] eqn:Hp; [|done..].
      apply write_well_started. by eapply pop_well_started.
  - rewrite switch_close. unfold case_close, gets, bind.
    destruct (is_braced st && negb (after_dollar st)).
    + by apply pop_well_started.
    + by apply write_well_started.
  - rewrite (switch_name _ _ Hn). by apply case_name_well_started.
  - rewrite (switch_other _ _ Ho). unfold case_default, gets, bind.
    destruct (is_unbraced st); [by apply pop_well_started|].
    destruct (after_dollar st) eqn:Had; [done|].
    apply case_name_well_started; [|done]. by rewrite Had.
Qed.

(** C4, amended.  The contents of an entry are not confined to name
    characters: while a braced entry is on top every character that is
    written goes into it, and so does every value that is resolved.  What
    holds at every step of the scan is that each unbraced entry on the
    stack begins with a name character, the one that opened it. *)
Theorem unbraced_starts_with_name_char (m : gmap string string) (st : state) :
  reachable m st →
  Forall (λ e, braced e = false → starts_with_name_char (contents e) = true)
    (stack st).
Proof.
  intros (consumed & out & H).
  assert (G : ∀ s st0, Forall well_started (stack st0) →
            scan m s st0 = Returned () st → Forall well_started (stack st)).
  { clear. induction s as [|c s IH]; intros st0 H0; simpl.
    - unfold ret. by intros [= <-].
    - unfold bind. destruct (switch m c st0) as [[] st1|?|?] eqn:Hsw; [|done..].
      apply IH. by eapply switch_well_started. }
  apply (G consumed (initial out)); [by constructor|done].
Qed.

Lemma unbraced_starts_with_name_char_witness :
  reachable {[ "B" := "-" ]} 
    {| after_dollar := false;
       stack := [{| braced := false; contents := "x}" |};
                 {| braced := true; contents := "A -" |}];
       output := "" |} ∧
  Forall (λ e, braced e = false → starts_with_name_char (contents e) = true)
    [{| braced := false; contents := "x}" |};
     {| braced := true; contents := "A -" |}].
Proof.
  assert (H : reachable {[ "B" := "-" ]}
                {| after_dollar := false;
                   stack := [{| braced := false; contents := "x}" |};
                             {| braced := true; contents := "A -" |}];
                   output := "" |}).
  { exists "${A ${B}$x}", "". reflexivity. }
  split; [exact H|].
  exact (unbraced_starts_with_name_char _ _ H).
Defined.

(** In ["${A-"] the braced entry holds ['-'], which is no name character. *)
Lemma frame_contents_counterexample :
  scan ∅ "${A-" (initial "") =
    Returned () {| after_dollar := false;
                   stack := [{| braced := true; contents := "A-" |}];
                   output := "" |} ∧
  is_name_char "-" = false ∧
  string_forallb is_name_char "A-" = false.
Proof. repeat split; reflexivity. Qed.

(** * Further properties of the automaton *)

(** A character other than ['$'], read with no pending dollar and no
    unbraced entry on top (and, if it is ['}'], no braced one either), is
    written. *)
Lemma switch_literal m c st :
  after_dollar st = false →
  is_unbraced st = false →
  (c =? "$")%char = false →
  (is_braced st = true → (c =? "}")%char = false) →
  switch m c st = write c st.
Proof.
  intros Had Hu Hd Hc.
  assert (H : scan m (String c "") st = write_str (String c "") st).
  { apply scan_text; try done.
    - simpl. rewrite Ascii.eqb_sym. by rewrite Hd.
    - intros Hb. simpl. rewrite Ascii.eqb_sym. by rewrite (Hc Hb). }
  rewrite write_str_String in H. cbn [scan] in H. unfold bind, ret in H.
  destruct (switch m c st) as [[] st1|e st1|st1];
    destruct (write c st) as [[] st2|e2 st2|st2];
    rewrite ?write_str_empty in H; congruence.
Qed.

Lemma scan_escape m s out :
  scan m (escape s) (initial out) = Returned () (initial (out +:+ s)).
Proof.
  revert out. induction s as [|c s IH]; intros out.
  { simpl. by rewrite string_app_nil_r. }
  cbn [escape]. destruct (c =? "$")%char eqn:Hc.
  - apply Ascii.eqb_eq in Hc as ->. cbn [scan].
    rewrite switch_dollar. unfold bind. cbn.
    change {| after_dollar := false; stack := [];
              output := push_back out "$" |} with (initial (push_back out "$")).
    rewrite IH. by rewrite push_back_app.
  - cbn [scan]. unfold bind. rewrite switch_literal by done. cbn.
    change {| after_dollar := false; stack := [];
              output := push_back out c |} with (initial (push_back out c)).
    rewrite IH. by rewrite push_back_app.
Qed.

(** X1. Doubling every ['$'] quotes a text: whatever characters [s] holds,
    the template [escape s] expands to [s], under every mapping. *)
Theorem expand_escape (m : gmap string string) (s : string) :
  expand (escape s) m = Expanded s.
Proof.
  rewrite (expand_scan_returned m _ (initial s)); [done|].
  apply (scan_escape m s "").
Qed.

(** X2. Templates compose at top level: when the scan of [s] ends with an
    empty stack and no pending dollar, having written [o], the template
    [s] followed by [t] expands to [o] followed by the expansion of [t],
    and fails as [t] fails. *)
Theorem expand_app (m : gmap string string) (s t o : string) :
  scan m s (initial "") = Returned () (initial o) →
  expand (s +:+ t) m =
  match expand t m with
  | Expanded text => Expanded (o +:+ text)
  | Failed e => Failed e
  | AssertionFailed => AssertionFailed
  end.
Proof.
  intros Hs. unfold expand, operator_shl. cbn [input variables].
  assert (H : substitute_vars (s +:+ t) "" m = substitute_vars t o m).
  { unfold substitute_vars, bind. rewrite scan_app. unfold bind. by rewrite Hs. }
  rewrite H, substitute_vars_on_stream.
  by destruct (substitute_vars t "" m).
Qed.

Lemma expand_app_witness :
  scan {[ "os" := "linux" ]} "lib/${os}/" (initial "") =
    Returned () (initial "lib/linux/") ∧
  expand "lib/${os}/${os}.so" {[ "os" := "linux" ]} =
  match expand "${os}.so" {[ "os" := "linux" ]} with
  | Expanded text => Expanded ("lib/linux/" +:+ text)
  | Failed e => Failed e
  | AssertionFailed => AssertionFailed
  end.
Proof.
  split; [reflexivity|].
  exact (expand_app {[ "os" := "linux" ]} "lib/${os}/" "${os}.so" "lib/linux/"
           eq_refl).
Defined.

Lemma leb_1024_0 : (1024 <=? 0) = false.
Proof. reflexivity. Qed.

(** X3. A braced reference to a name without a value fails with
    [UnknownVariable] for that very name, whatever follows the reference:
    no default is substituted. *)
Theorem expand_missing_variable (m : gmap string string) (before name rest : string) :
  string_mem "$" before = false →
  plain name = true →
  m !! name = None →
  expand (before +:+ "${" +:+ name +:+ "}" +:+ rest) m =
  Failed (UnknownVariable name).
Proof.
  intros Hb Hn Hm.
  apply (expand_scan_thrown m _ _
           {| after_dollar := false; stack := []; output := before |}).
  rewrite scan_app. unfold bind. rewrite scan_text by done.
  cbn [write_str initial stack after_dollar output].
  rewrite scan_dollar_open by done. cbn [length]. rewrite leb_1024_0.
  rewrite scan_app. unfold bind. rewrite scan_text_braced by done.
  change ("}" +:+ rest) with (String "}" rest).
  rewrite scan_close. unfold bind. rewrite pop_cons. cbn [contents].
  by rewrite string_app_nil_l, Hm.
Qed.

Lemma expand_missing_variable_witness :
  string_mem "$" "-I" = false ∧ plain "inc dir" = true ∧
  ({[ "incdir" := "/usr/include" ]} : gmap string string) !! "inc dir" = None ∧
  expand "-I${inc dir} -O2" {[ "incdir" := "/usr/include" ]} =
  Failed (UnknownVariable "inc dir").
Proof.
  split; [reflexivity|]. split; [reflexivity|]. split; [reflexivity|].
  exact (expand_missing_variable {[ "incdir" := "/usr/include" ]}
           "-I" "inc dir" " -O2" eq_refl eq_refl eq_refl).
Defined.

(** X6. A template that ends inside a braced reference fails with
    [UnterminatedBracedVariable], whatever the mapping holds. *)
Theorem expand_unterminated (m : gmap string string) (before name : string) :
  string_mem "$" before = false →
  plain name = true →
  expand (before +:+ "${" +:+ name) m = Failed UnterminatedBracedVariable.
Proof.
  intros Hb Hn.
  rewrite (expand_scan_returned m _
             {| after_dollar := false;
                stack := [{| braced := true; contents := name |}];
                output := before |}).
  - by rewrite drain_unfold.
  - rewrite scan_app. unfold bind. rewrite scan_text by done.
    cbn [write_str initial stack after_dollar output].
    rewrite scan_dollar_open by done. cbn [length]. rewrite leb_1024_0.
    by rewrite scan_text_braced.
Qed.

Lemma expand_unterminated_witness :
  string_mem "$" "a{b}" = false ∧ plain "HOME/bin" = true ∧
  expand "a{b}${HOME/bin" {[ "HOME/bin" := "x" ]} =
  Failed UnterminatedBracedVariable.
Proof.
  split; [reflexivity|]. split; [reflexivity|].
  exact (expand_unterminated {[ "HOME/bin" := "x" ]} "a{b}" "HOME/bin"
           eq_refl eq_refl).
Defined.

(** ** A larger mapping *)

Section carries_over.

Variables m m' : gmap string string.
Hypothesis Hsub : m ⊆ m'.

Lemma carries_over_refl {A} (f : M A) : carries_over f f.
Proof. by intros st a st'. Qed.

Lemma carries_over_bind {A B} (f f' : M A) (k k' : A → M B) :
  carries_over f f' → (∀ a, carries_over (k a) (k' a)) →
  carries_over (bind f k) (bind f' k').
Proof.
  intros Hf Hk st b st'. unfold bind.
  destruct (f st) as [a st1|?|?] eqn:Hfst; [|done..].
  rewrite (Hf _ _ _ Hfst). apply Hk.
Qed.

Lemma carries_over_when c (f f' : M unit) :
  carries_over f f' → carries_over (when c f) (when c f').
Proof. destruct c; [done|]. intros _. apply carries_over_refl. Qed.

Lemma carries_over_lookup key : carries_over (lookup m key) (lookup m' key).
Proof.
  intros st a st'. unfold lookup.
  destruct (m !! key) as [v|] eqn:Hv; [|done].
  by rewrite (lookup_weaken _ _ _ _ Hv Hsub).
Qed.

Lemma carries_over_pop : carries_over (pop m) (pop m').
Proof.
  intros [ad [|top below] out] a st'; [done|].
  unfold pop. cbn [stack after_dollar output].
  apply carries_over_bind; [apply carries_over_lookup|].
  intros v. apply carries_over_refl.
Qed.

Lemma carries_over_switch ch : carries_over (switch m ch) (switch m' ch).
Proof.
  unfold switch, case_dollar, case_open, case_close, case_default.
  repeat first
    [ progress intros
    | apply carries_over_pop
    | apply carries_over_bind
    | apply carries_over_when
    | match goal with |- carries_over (if ?c then _ else _) _ => destruct c end
    | apply carries_over_refl ].
Qed.

Lemma carries_over_scan s : carries_over (scan m s) (scan m' s).
Proof.
  induction s as [|c s IH]; [apply carries_over_refl|].
  cbn [scan]. apply carries_over_bind; [apply carries_over_switch|done].
Qed.

Lemma carries_over_drain_loop n : carries_over (drain_loop m n) (drain_loop m' n).
Proof.
  induction n as [|n IH]; [apply carries_over_refl|].
  intros [ad [|top below] out] a st'; [done|].
  cbn [drain_loop stack].
  apply (carries_over_bind (gets is_braced) (gets is_braced));
    [apply carries_over_refl|].
  intros []; [apply carries_over_refl|].
  apply carries_over_bind; [apply carries_over_pop|done].
Qed.

Lemma carries_over_substitute_vars t out st :
  substitute_vars t out m = Returned () st →
  substitute_vars t out m' = Returned () st.
Proof.
  unfold substitute_vars.
  apply (carries_over_bind (scan m t) (scan m' t)); [apply carries_over_scan|].
  intros _ st0 a st1. unfold drain. apply carries_over_drain_loop.
Qed.

End carries_over.

(** X4. Defining more variables never changes an expansion that succeeds:
    if [t] expands to [text] under [m], it expands to [text] under every
    mapping that extends [m]. *)
Theorem expand_weaken (m m' : gmap string string) (t text : string) :
  m ⊆ m' → expand t m = Expanded text → expand t m' = Expanded text.
Proof.
  intros Hsub. unfold expand, operator_shl. cbn [input variables].
  destruct (substitute_vars t "" m) as [[] st|e st|st] eqn:H; [|done..].
  by rewrite (carries_over_substitute_vars m m' Hsub _ _ _ H).
Qed.

Lemma expand_weaken_witness :
  ({[ "A" := "x" ]} : gmap string string) ⊆ <[ "B" := "y" ]> {[ "A" := "x" ]} ∧
  expand "${A}/$$" {[ "A" := "x" ]} = Expanded "x/$" ∧
  expand "${A}/$$" (<[ "B" := "y" ]> {[ "A" := "x" ]}) = Expanded "x/$".
Proof.
  assert (H : ({[ "A" := "x" ]} : gmap string string)
              ⊆ <[ "B" := "y" ]> {[ "A" := "x" ]})
    by (apply insert_subseteq; reflexivity).
  split; [exact H|]. split; [reflexivity|].
  exact (expand_weaken _ _ "${A}/$$" "x/$" H eq_refl).
Defined.

(** X5. The [assert] of [pop] never fails: every path to [pop] has checked
    that the stack is not empty, so a call of the operator returns or
    throws a [syntax_exception], for every template, mapping and stream. *)
Theorem assert_never_fails (m : gmap string string) (t out : string) :
  (∀ st, operator_shl out {| input := t; variables := m |} ≠ Aborted st) ∧
  expand t m ≠ AssertionFailed.
Proof.
  split.
  - intros st. apply substitute_vars_not_aborted.
  - apply expand_not_assertion_failed.
Qed.

(** * The callers *)

(** ** A reference between literal text *)

Lemma expand_reference_in_text m before name after value :
  string_mem "$" before = false →
  plain name = true →
  string_mem "$" after = false →
  m !! name = Some value →
  expand (before +:+ "${" +:+ name +:+ "}" +:+ after) m =
  Expanded (before +:+ value +:+ after).
Proof.
  intros Hb Hn Ha Hm.
  rewrite (expand_scan_returned m _
             {| after_dollar := false; stack := [];
                output := (before +:+ value) +:+ after |}).
  { rewrite drain_unfold. simpl. by rewrite string_app_assoc. }
  rewrite scan_app. unfold bind. rewrite scan_text by done.
  cbn [write_str initial stack after_dollar output].
  rewrite scan_dollar_open by done. cbn [length]. rewrite leb_1024_0.
  rewrite scan_app. unfold bind. rewrite scan_text_braced by done.
  change ("}" +:+ after) with (String "}" after).
  rewrite scan_close. unfold bind. rewrite pop_cons. cbn [contents].
  rewrite string_app_nil_l, Hm. cbn [write_str stack after_dollar output].
  by rewrite scan_text.
Qed.

Lemma expands_dollar_free m s : string_mem "$" s = false → expands m s.
Proof.
  intros Hs. exists s.
  rewrite (expand_scan_returned m s
             {| after_dollar := false; stack := []; output := s |}); [done|].
  by rewrite scan_text.
Qed.

(** X7. A braced reference between literal text is replaced by the value of
    its name and the text around it is kept: for text without ['$'] before
    and after, and a name without ['$'] and ['}'] that has the value
    [value], the template expands to the text before, [value], and the text
    after. *)
Theorem expand_reference (m : gmap string string) (before name after value : string) :
  string_mem "$" before = false →
  plain name = true →
  string_mem "$" after = false →
  m !! name = Some value →
  expand (before +:+ "${" +:+ name +:+ "}" +:+ after) m =
  Expanded (before +:+ value +:+ after).
Proof. apply expand_reference_in_text. Qed.

Lemma expand_reference_witness :
  string_mem "$" "lib/" = false ∧ plain "mach_type" = true ∧
  string_mem "$" "/pkgconfig" = false ∧
  ({[ "mach_type" := "x86_64-linux-gnu" ]} : gmap string string) !! "mach_type"
    = Some "x86_64-linux-gnu" ∧
  expand "lib/${mach_type}/pkgconfig" {[ "mach_type" := "x86_64-linux-gnu" ]} =
  Expanded "lib/x86_64-linux-gnu/pkgconfig".
Proof.
  split; [reflexivity|]. split; [reflexivity|]. split; [reflexivity|].
  split; [reflexivity|].
  exact (expand_reference {[ "mach_type" := "x86_64-linux-gnu" ]}
           "lib/" "mach_type" "/pkgconfig" "x86_64-linux-gnu"
           eq_refl eq_refl eq_refl eq_refl).
Defined.

(** ** [add_default_configs] *)

Lemma find_last_of_from_absent s ch i found :
  string_mem ch s = false → find_last_of_from s ch i found = found.
Proof.
  revert i found. induction s as [|c s IH]; intros i found Hs; [done|].
  cbn [string_mem] in Hs. apply orb_false_elim in Hs as [Hc Hs].
  cbn [find_last_of_from]. rewrite Ascii.eqb_sym, Hc. by apply IH.
Qed.

Lemma find_last_of_from_app a b ch i found :
  find_last_of_from (a +:+ b) ch i found =
  find_last_of_from b ch (i + Z.of_nat (String.length a))%Z
    (find_last_of_from a ch i found).
Proof.
  revert i found. induction a as [|c a IH]; intros i found.
  { simpl. by rewrite Z.add_0_r. }
  rewrite string_app_String. cbn [find_last_of_from String.length].
  rewrite IH. f_equal. lia.
Qed.

(** The last ['/'] of [dir/name] is the one before [name]. *)
Lemma find_last_of_slash dir name :
  string_mem "/" name = false →
  find_last_of (dir +:+ "/" +:+ name) "/" = Z.of_nat (String.length dir).
Proof.
  intros Hn. unfold find_last_of. rewrite find_last_of_from_app.
  change ("/" +:+ name) with (String "/" name). cbn [find_last_of_from].
  rewrite Ascii.eqb_refl. by rewrite find_last_of_from_absent.
Qed.

Lemma string_drop_app a b : string_drop (String.length a) (a +:+ b) = b.
Proof. induction a as [|c a IH]; [done|]. by rewrite string_app_String. Qed.

Lemma c_string_no_nul s : string_mem "000" s = false → c_string s = s.
Proof.
  induction s as [|c s IH]; [done|]. cbn [string_mem c_string].
  intros [Hc Hs]%orb_false_elim. rewrite Ascii.eqb_sym, Hc. by rewrite IH.
Qed.

Lemma string_length_app a b :
  String.length (a +:+ b) = String.length a + String.length b.
Proof.
  induction a as [|c a IH]; [done|].
  rewrite string_app_String. simpl. by rewrite IH.
Qed.

Lemma default_prompt_slash c dir name :
  config.folder c = dir +:+ "/" +:+ name →
  string_mem "/" name = false →
  string_mem "000" name = false →
  (Z.of_nat (String.length (config.folder c)) < 2 ^ 64)%Z →
  config.default_prompt c = "(" +:+ name +:+ ") ".
Proof.
  intros Hf Hs Hz Hlen. unfold config.default_prompt, c_str_plus.
  rewrite Hf in *. rewrite find_last_of_slash by done.
  rewrite string_length_app in Hlen.
  change (String.length ("/" +:+ name)) with (S (String.length name)) in Hlen.
  change (2 ^ 64)%Z with 18446744073709551616%Z in *.
  rewrite Z.mod_small by lia.
  replace (Z.to_nat (Z.of_nat (String.length dir) + 1))
    with (String.length (dir +:+ "/")).
  - rewrite <- (string_app_assoc dir "/" name).
    rewrite string_drop_app. by rewrite c_string_no_nul.
  - rewrite string_length_app. simpl. lia.
Qed.

(** X8. The prompt [add_default_configs] chooses is the last component of
    the folder between parentheses: for a folder [dir/name], [name] holding
    no ['/'] (and no NUL, the folder being shorter than [2^64]), and no
    prompt set by the user, the prompt becomes ["(name) "]. *)
Theorem default_prompt_is_basename (c : config.config) (dir name : string) :
  config.prompt_set c = false →
  config.folder c = dir +:+ "/" +:+ name →
  string_mem "/" name = false →
  string_mem "000" name = false →
  (Z.of_nat (String.length (config.folder c)) < 2 ^ 64)%Z →
  config.prompt (config.add_default_configs c) = "(" +:+ name +:+ ") ".
Proof.
  intros Hp Hf Hs Hz Hlen. cbn [config.add_default_configs config.prompt].
  rewrite Hp. by apply (default_prompt_slash c dir name).
Qed.

Lemma default_prompt_is_basename_witness :
  config.prompt_set (config.set_folder "/home/u/my.env" config.fresh) = false ∧
  config.folder (config.set_folder "/home/u/my.env" config.fresh)
    = "/home/u" +:+ "/" +:+ "my.env" ∧
  string_mem "/" "my.env" = false ∧
  string_mem "000" "my.env" = false ∧
  (Z.of_nat (String.length
               (config.folder (config.set_folder "/home/u/my.env" config.fresh)))
   < 2 ^ 64)%Z ∧
  config.prompt
    (config.add_default_configs (config.set_folder "/home/u/my.env" config.fresh))
  = "(my.env) ".
Proof.
  split; [reflexivity|]. split; [reflexivity|]. split; [reflexivity|].
  split; [reflexivity|]. split; [reflexivity|].
  exact (default_prompt_is_basename
           (config.set_folder "/home/u/my.env" config.fresh) "/home/u" "my.env"
           eq_refl eq_refl eq_refl eq_refl eq_refl).
Defined.

Lemma defined_expands c key before after :
  config.defined c key = true →
  plain key = true →
  string_mem "$" before = false →
  string_mem "$" after = false →
  expands (config.variables c) (before +:+ "${" +:+ key +:+ "}" +:+ after).
Proof.
  intros Hd Hk Hb Ha. unfold config.defined in Hd.
  apply bool_decide_eq_true in Hd as [v Hv].
  exists (before +:+ v +:+ after). by apply expand_reference_in_text.
Qed.

Lemma default_suffixes_expand_all c :
  Forall (expands (config.variables c)) (all_suffixes c) →
  Forall (expands (config.variables c))
    (all_suffixes (config.add_default_configs c)).
Proof.
  unfold all_suffixes.
  cbn [config.add_default_configs config.executable_suffixes
       config.include_suffixes config.info_suffixes config.library_suffixes
       config.manpage_suffixes config.pkg_config_suffixes].
  rewrite !Forall_app. intros (He & Hi & HI & Hl & Hm & HP).
  assert (Hlit : ∀ s, string_mem "$" s = false →
            Forall (expands (config.variables c)) [s]).
  { intros s Hs. constructor; [by apply expands_dollar_free|constructor]. }
  assert (Hif : ∀ (b : bool) s,
            (b = true → expands (config.variables c) s) →
            Forall (expands (config.variables c)) (if b then [s] else [])).
  { intros [] s Hs; [|constructor]. constructor; [by apply Hs|constructor]. }
  repeat split; try assumption; try (by apply Hlit).
  - apply Hif. intros Hd.
    by apply (defined_expands c "mach_type" "include/" "").
  - apply Hif. intros Hd.
    by apply (defined_expands c "mach_type" "lib/" "").
  - apply Hif. intros _. by apply expands_dollar_free.
  - apply Hif. intros _. by apply expands_dollar_free.
  - apply Hif. intros _. by apply expands_dollar_free.
  - apply Hif. intros Hd.
    by apply (defined_expands c "mach_type" "lib/" "/pkgconfig").
Qed.

(** X9. [add_default_configs] adds no suffix that fails to expand: the
    suffixes that mention [${mach_type}] are added only when [mach_type]
    is defined, so if every suffix expanded under the variables before,
    every suffix, the defaults included, expands afterwards. *)
Theorem default_suffixes_expand (c : config.config) :
  Forall (expands (config.variables c)) (all_suffixes c) →
  Forall (expands (config.variables (config.add_default_configs c)))
    (all_suffixes (config.add_default_configs c)).
Proof.
  change (config.variables (config.add_default_configs c))
    with (config.variables c).
  apply default_suffixes_expand_all.
Qed.

Lemma default_suffixes_expand_witness :
  Forall (expands (config.variables
                     (config.set_variables {[ "mach_type" := "arm" ]} config.fresh)))
    (all_suffixes (config.set_variables {[ "mach_type" := "arm" ]} config.fresh)) ∧
  Forall (expands {[ "mach_type" := "arm" ]})
    ["bin"; "include"; "include/${mach_type}"; "share/info"; "lib";
     "lib/${mach_type}"; "man"; "share/man"; "lib/pkgconfig";
     "share/pkgconfig"; "lib/${mach_type}/pkgconfig"].
Proof.
  assert (H : Forall (expands (config.variables
                (config.set_variables {[ "mach_type" := "arm" ]} config.fresh)))
                (all_suffixes
                   (config.set_variables {[ "mach_type" := "arm" ]} config.fresh)))
    by constructor.
  split; [exact H|].
  exact (default_suffixes_expand
           (config.set_variables {[ "mach_type" := "arm" ]} config.fresh) H).
Defined.

(** ** [write_activate_script] *)

Lemma returns_iff_proper a P Q : returns_iff a P → (P ↔ Q) → returns_iff a Q.
Proof. intros Ha HPQ stream. by rewrite (Ha stream). Qed.

Lemma returns_iff_put text : returns_iff (put text) True.
Proof. intros stream. split; [done|]. intros _. by eexists. Qed.

Lemma returns_iff_skip : returns_iff skip True.
Proof. intros stream. split; [done|]. intros _. by eexists. Qed.

Lemma returns_iff_and_then a b P Q :
  returns_iff a P → returns_iff b Q → returns_iff (a <<< b) (P ∧ Q).
Proof.
  intros Ha Hb stream. unfold and_then.
  destruct (a stream) as [stream1|e stream1|stream1] eqn:Hstream.
  - rewrite (Hb stream1). split; [|tauto].
    intros HQ. split; [|done]. apply (Ha stream). by eexists.
  - split; [by intros [? ?]|]. intros [[? HP]%(Ha stream) _]. congruence.
  - split; [by intros [? ?]|]. intros [[? HP]%(Ha stream) _]. congruence.
Qed.

Lemma returns_iff_for_each {A} (l : list A) body (P : A → Prop) :
  (∀ x, returns_iff (body x) (P x)) →
  returns_iff (for_each l body) (Forall P l).
Proof.
  intros Hbody. induction l as [|x l IH]; cbn [for_each].
  - eapply returns_iff_proper; [apply returns_iff_skip|].
    split; [constructor|done].
  - eapply returns_iff_proper; [by apply returns_iff_and_then|].
    by rewrite Forall_cons.
Qed.

Lemma returns_iff_for_each_True {A} (l : list A) body :
  (∀ x, returns_iff (body x) True) → returns_iff (for_each l body) True.
Proof.
  intros Hbody.
  apply returns_iff_proper with (P := Forall (λ _, True) l).
  - by apply returns_iff_for_each.
  - split; [done|]. intros _. by apply Forall_true.
Qed.

Lemma returns_iff_unless_empty suffixes a (P : string → Prop) :
  returns_iff a (Forall P suffixes) →
  returns_iff (config.unless_empty suffixes a) (Forall P suffixes).
Proof.
  destruct suffixes; [|done]. intros _.
  eapply returns_iff_proper; [apply returns_iff_skip|].
  split; [constructor|done].
Qed.

Lemma returns_iff_unless_empty_put suffixes text :
  returns_iff (config.unless_empty suffixes (put text)) True.
Proof. destruct suffixes; [apply returns_iff_skip|apply returns_iff_put]. Qed.

(** The operator returns exactly when the template expands. *)
Lemma returns_iff_put_subst m t :
  returns_iff (put_subst {| input := t; variables := m |}) (expands m t).
Proof.
  intros stream. unfold put_subst, expands, expand, operator_shl.
  cbn [input variables]. rewrite (substitute_vars_on_stream m t stream).
  destruct (substitute_vars t "" m) as [[] st|e st|st]; simpl.
  - split; intros _; by eexists.
  - split; by intros [? ?].
  - split; by intros [? ?].
Qed.

Lemma returns_iff_path_block c name suffixes :
  returns_iff (config.path_block c name suffixes)
    (Forall (expands (config.variables c)) suffixes).
Proof.
  unfold config.path_block.
  eapply returns_iff_proper.
  { apply returns_iff_and_then; [apply returns_iff_put|].
    apply returns_iff_and_then; [|apply returns_iff_put].
    apply (returns_iff_for_each _ _ (expands (config.variables c))).
    intros suffix. eapply returns_iff_proper.
    { repeat (apply returns_iff_and_then; [apply returns_iff_put|]).
      apply returns_iff_and_then; [|apply returns_iff_put].
      apply returns_iff_put_subst. }
    tauto. }
  tauto.
Qed.

Lemma returns_iff_write_activate_script c :
  returns_iff (config.write_activate_script c)
    (expands (config.variables c) (config.prompt c) ∧
     Forall (expands (config.variables c)) (all_suffixes c) ∧
     map_Forall (λ _ value, expands (config.variables c) value)
       (config.environment_variables c)).
Proof.
  unfold config.write_activate_script.
  eapply returns_iff_proper.
  { apply returns_iff_and_then; [apply returns_iff_put|].
    do 6 (apply returns_iff_and_then; [apply returns_iff_unless_empty_put|]).
    apply returns_iff_and_then.
    { apply returns_iff_for_each_True. intros e.
      repeat (apply returns_iff_proper with (P := True ∧ True);
              [apply returns_iff_and_then; [apply returns_iff_put|]|tauto]).
      apply returns_iff_put. }
    apply returns_iff_and_then; [apply returns_iff_put|].
    apply returns_iff_and_then; [apply returns_iff_put|].
    apply returns_iff_and_then; [apply returns_iff_put_subst|].
    apply returns_iff_and_then; [apply returns_iff_put|].
    do 3 (apply returns_iff_and_then;
          [apply returns_iff_unless_empty, returns_iff_path_block|]).
    apply returns_iff_and_then.
    { apply (returns_iff_unless_empty _ _ (expands (config.variables c))).
      apply returns_iff_proper
        with (P := Forall (expands (config.variables c)) (config.library_suffixes c)
                   ∧ Forall (expands (config.variables c)) (config.library_suffixes c)
                   ∧ Forall (expands (config.variables c)) (config.library_suffixes c));
        [|tauto].
      repeat apply returns_iff_and_then; apply returns_iff_path_block. }
    do 2 (apply returns_iff_and_then;
          [apply returns_iff_unless_empty, returns_iff_path_block|]).
    apply (returns_iff_for_each _ _
             (λ e, expands (config.variables c) e.2)).
    intros e. eapply returns_iff_proper.
    { do 5 (apply returns_iff_and_then; [apply returns_iff_put|]).
      apply returns_iff_and_then; [apply returns_iff_put_subst|].
      do 3 (apply returns_iff_and_then; [apply returns_iff_put|]).
      apply returns_iff_put. }
    tauto. }
  unfold all_suffixes. rewrite !Forall_app, map_Forall_to_list.
  assert (He : Forall (λ e : string * string, expands (config.variables c) e.2)
                 (map_to_list (config.environment_variables c))
               ↔ Forall (uncurry (λ _ value, expands (config.variables c) value))
                   (map_to_list (config.environment_variables c)))
    by (apply Forall_iff; by intros [? ?]).
  tauto.
Qed.

(** X10. The script is written to the end exactly when the prompt, every
    suffix of the six lists and every value of the environment variables
    expand under the variables of the configuration; otherwise the call
    leaves by an exception. *)
Theorem script_written_iff (c : config.config) (stream : string) :
  (∃ script, config.write_activate_script c stream = Written script) ↔
  expands (config.variables c) (config.prompt c) ∧
  Forall (expands (config.variables c)) (all_suffixes c) ∧
  map_Forall (λ _ value, expands (config.variables c) value)
    (config.environment_variables c).
Proof. apply returns_iff_write_activate_script. Qed.

(** X11. With the default configuration the script is always written: when
    the defaults are on, the folder is [dir/name] with no ['/'], ['$'] or
    NUL in [name], and what the user gave (the suffixes, the prompt if
    set, the environment values) expands, the end of [main] writes the
    whole script. *)
Theorem write_script_succeeds (p : process) (dir name : string) :
  default_configs p = true →
  (config.prompt_set (cfg p) = true →
   expands (config.variables (cfg p)) (config.prompt (cfg p))) →
  Forall (expands (config.variables (cfg p))) (all_suffixes (cfg p)) →
  map_Forall (λ _ value, expands (config.variables (cfg p)) value)
    (config.environment_variables (cfg p)) →
  string_mem "/" name = false →
  string_mem "$" name = false →
  string_mem "000" name = false →
  (Z.of_nat (String.length (dir +:+ "/" +:+ name)) < 2 ^ 64)%Z →
  ∃ script, write_script (dir +:+ "/" +:+ name) p = Written script.
Proof.
  intros Hd Hprompt Hsuffixes Henv Hslash Hdollar Hnul Hlen.
  unfold write_script. rewrite Hd.
  apply returns_iff_write_activate_script.
  split; [|split].
  - cbn [config.add_default_configs config.prompt config.variables
         config.set_folder config.prompt_set].
    destruct (config.prompt_set (cfg p)) eqn:Hset; [by apply Hprompt|].
    rewrite (default_prompt_slash _ dir name) by done.
    apply expands_dollar_free.
    rewrite !string_mem_app, Hdollar. reflexivity.
  - by apply (default_suffixes_expand_all
                (config.set_folder (dir +:+ "/" +:+ name) (cfg p))).
  - done.
Qed.

Lemma write_script_succeeds_witness :
  default_configs start = true ∧
  string_mem "/" "env" = false ∧ string_mem "$" "env" = false ∧
  string_mem "000" "env" = false ∧
  ∃ script, write_script ("/tmp" +:+ "/" +:+ "env") start = Written script.
Proof.
  split; [reflexivity|]. split; [reflexivity|]. split; [reflexivity|].
  split; [reflexivity|].
  apply (write_script_succeeds start "/tmp" "env"); try reflexivity.
  - discriminate.
  - constructor.
  - apply map_Forall_empty.
Defined.

(** ** The stream is kept *)

Lemma grows_put text : grows (put text).
Proof. intros stream. by exists text. Qed.

Lemma grows_skip : grows skip.
Proof. intros stream. exists "". simpl. by rewrite string_app_nil_r. Qed.

Lemma grows_and_then a b : grows a → grows b → grows (a <<< b).
Proof.
  intros Ha Hb stream. unfold and_then. destruct (Ha stream) as [w1 Hw1].
  destruct (a stream) as [stream1|e stream1|stream1]; simpl in Hw1; subst;
    [|by exists w1..].
  destruct (Hb (stream +:+ w1)) as [w2 Hw2]. exists (w1 +:+ w2).
  by rewrite Hw2, string_app_assoc.
Qed.

Lemma grows_for_each {A} (l : list A) body :
  (∀ x, grows (body x)) → grows (for_each l body).
Proof.
  intros Hbody. induction l as [|x l IH]; [apply grows_skip|].
  by apply grows_and_then.
Qed.

Lemma grows_unless_empty suffixes a : grows a → grows (config.unless_empty suffixes a).
Proof. destruct suffixes; [intros _; apply grows_skip|done]. Qed.

Lemma grows_put_subst subst : grows (put_subst subst).
Proof.
  intros stream. unfold put_subst, operator_shl.
  rewrite substitute_vars_on_stream.
  destruct (substitute_vars _ "" _) as [[] st|e st|st]; by eexists.
Qed.

Lemma grows_path_block c name suffixes : grows (config.path_block c name suffixes).
Proof.
  unfold config.path_block.
  repeat first [ apply grows_and_then | apply grows_put | apply grows_put_subst
               | apply grows_for_each; intros ? ].
Qed.

Lemma grows_script_tail c :
  ∃ tail, config.write_activate_script c = (put config.script_head <<< tail)
          ∧ grows tail.
Proof.
  eexists. split; [reflexivity|].
  repeat first [ apply grows_and_then | apply grows_put | apply grows_put_subst
               | apply grows_path_block | apply grows_unless_empty
               | apply grows_for_each; intros ? ].
Qed.

(** X12. Writing the script only adds to the stream, and the shell
    functions always come first: whether the call returns or throws, the
    stream then holds what it held before, the head of the script, and
    what was written after it. *)
Theorem script_keeps_stream (c : config.config) (stream : string) :
  ∃ rest,
    stream_of (config.write_activate_script c stream) =
    stream +:+ config.script_head +:+ rest.
Proof.
  destruct (grows_script_tail c) as (tail & -> & Htail).
  unfold and_then, put. destruct (Htail (stream +:+ config.script_head)) as [w Hw].
  exists w. by rewrite Hw, string_app_assoc.
Qed.

(** ** The options *)

Lemma split_at_equals_app key value :
  string_mem "=" key = false →
  split_at_equals (key +:+ "=" +:+ value) = Some (key, value).
Proof.
  induction key as [|c key IH]; [done|].
  cbn [string_mem]. intros [Hc Hk]%orb_false_elim.
  rewrite string_app_String. cbn [split_at_equals].
  rewrite Ascii.eqb_sym, Hc. by rewrite IH.
Qed.

Lemma split_at_equals_none s :
  string_mem "=" s = false → split_at_equals s = None.
Proof.
  induction s as [|c s IH]; [done|].
  cbn [string_mem split_at_equals]. intros [Hc Hs]%orb_false_elim.
  rewrite Ascii.eqb_sym, Hc. by rewrite IH.
Qed.

(** X13. [-D key=value] defines a variable that templates can use: the
    argument is cut at its first ['='], the key gets the value (which may
    itself hold ['=']), and afterwards ["${key}"] expands to the value.
    [-E] does the same, to the same map. *)
Theorem define_then_expand (VERSION : string) (letter o : ascii)
    (key value : string) (p : process) :
  letter = "D"%char ∨ letter = "E"%char →
  string_mem "=" key = false →
  plain key = true →
  ∃ p',
    option_case VERSION
      {| opt := letter; optarg := key +:+ "=" +:+ value; optopt := o |} p
    = Continue p' ∧
    config.variables (cfg p') = <[key := value]> (config.variables (cfg p)) ∧
    config.environment_variables (cfg p') = config.environment_variables (cfg p) ∧
    expand ("${" +:+ key +:+ "}") (config.variables (cfg p')) = Expanded value.
Proof.
  intros Hletter Hkey Hplain.
  exists (set_cfg (config.set_variables
                     (<[key := value]> (config.variables (cfg p))) (cfg p)) p).
  split; [|split; [done|split; [done|]]].
  - destruct Hletter as [-> | ->].
    + change (option_case VERSION ?r p) with (case_define "D" r p).
      unfold case_define. cbn [optarg]. by rewrite split_at_equals_app.
    + change (option_case VERSION ?r p) with (case_define "E" r p).
      unfold case_define. cbn [optarg]. by rewrite split_at_equals_app.
  - cbn [set_cfg cfg config.set_variables config.variables].
    pose proof (expand_reference_in_text
                  (<[key := value]> (config.variables (cfg p)))
                  "" key "" value eq_refl Hplain eq_refl
                  (lookup_insert_eq _ _ _)) as H.
    rewrite !string_app_nil_r in H. exact H.
Qed.

Lemma define_then_expand_witness :
  string_mem "=" "opt" = false ∧ plain "opt" = true ∧
  ∃ p',
    option_case "1.0" {| opt := "D"; optarg := "opt=-O2 -DX=1"; optopt := "000" |}
      start = Continue p' ∧
    config.variables (cfg p') = <["opt" := "-O2 -DX=1"]> ∅ ∧
    config.environment_variables (cfg p') = ∅ ∧
    expand "${opt}" (config.variables (cfg p')) = Expanded "-O2 -DX=1".
Proof.
  split; [reflexivity|]. split; [reflexivity|].
  exact (define_then_expand "1.0" "D" "000" "opt" "-O2 -DX=1" start
           (or_introl eq_refl) eq_refl eq_refl).
Defined.

Lemma eqb_other (a x y : ascii) :
  (a =? x)%char = true → x ≠ y → (a =? y)%char = false.
Proof. intros ->%Ascii.eqb_eq Hxy. by apply Ascii.eqb_neq. Qed.

(** Rewrites the tests of the option letter that the hypotheses decide. *)
Ltac decide_letters :=
  repeat match goal with
         | H : (?a =? ?x)%char = _ |- context [(?a =? ?x)%char] => rewrite H
         | H : (?a =? ?x)%char = true |- context [(?a =? ?y)%char] =>
             rewrite (eqb_other a x y H) by discriminate
         end.

(** One pass through the [switch]: what a case that goes on has changed in
    the lists and in the environment variables. *)
Lemma option_case_continue VERSION r p p' :
  option_case VERSION r p = Continue p' →
  config.environment_variables (cfg p') = config.environment_variables (cfg p) ∧
  config.executable_suffixes (cfg p') =
    optargs_of "e" [r] ++ config.executable_suffixes (cfg p) ∧
  config.include_suffixes (cfg p') =
    optargs_of "i" [r] ++ config.include_suffixes (cfg p) ∧
  config.info_suffixes (cfg p') =
    optargs_of "I" [r] ++ config.info_suffixes (cfg p) ∧
  config.library_suffixes (cfg p') =
    optargs_of "l" [r] ++ config.library_suffixes (cfg p) ∧
  config.manpage_suffixes (cfg p') =
    optargs_of "m" [r] ++ config.manpage_suffixes (cfg p) ∧
  config.pkg_config_suffixes (cfg p') =
    optargs_of "P" [r] ++ config.pkg_config_suffixes (cfg p).
Proof.
  intros H. unfold option_case, case_define in H. cbn [optargs_of].
  repeat match type of H with
         | context [if (opt r =? ?x)%char then _ else _] =>
             destruct (opt r =? x)%char eqn:?
         end;
    try destruct (split_at_equals (optarg r)) as [[key value]|];
    try discriminate; injection H as <-; decide_letters; done.
Qed.

Lemma optargs_of_cons letter r rest :
  optargs_of letter (r :: rest) = optargs_of letter [r] ++ optargs_of letter rest.
Proof. cbn [optargs_of]. by destruct (opt r =? letter)%char. Qed.

Lemma rev_optargs_of_cons letter r rest (old : list string) :
  rev (optargs_of letter rest) ++ optargs_of letter [r] ++ old =
  rev (optargs_of letter (r :: rest)) ++ old.
Proof.
  rewrite (optargs_of_cons letter r rest), rev_app_distr.
  rewrite <- app_assoc. f_equal. f_equal.
  cbn [optargs_of]. by destruct (opt r =? letter)%char.
Qed.

Lemma option_loop_continue VERSION results p p' :
  option_loop VERSION results p = Continue p' →
  config.environment_variables (cfg p') = config.environment_variables (cfg p) ∧
  config.executable_suffixes (cfg p') =
    rev (optargs_of "e" results) ++ config.executable_suffixes (cfg p) ∧
  config.include_suffixes (cfg p') =
    rev (optargs_of "i" results) ++ config.include_suffixes (cfg p) ∧
  config.info_suffixes (cfg p') =
    rev (optargs_of "I" results) ++ config.info_suffixes (cfg p) ∧
  config.library_suffixes (cfg p') =
    rev (optargs_of "l" results) ++ config.library_suffixes (cfg p) ∧
  config.manpage_suffixes (cfg p') =
    rev (optargs_of "m" results) ++ config.manpage_suffixes (cfg p) ∧
  config.pkg_config_suffixes (cfg p') =
    rev (optargs_of "P" results) ++ config.pkg_config_suffixes (cfg p).
Proof.
  revert p. induction results as [|r rest IH]; intros p.
  { cbn [option_loop]. by intros [= <-]. }
  cbn [option_loop].
  destruct (option_case VERSION r p) as [p1| |] eqn:Hcase; [|done..].
  intros Hloop. apply IH in Hloop as (-> & -> & -> & -> & -> & -> & ->).
  apply option_case_continue in Hcase as (-> & -> & -> & -> & -> & -> & ->).
  rewrite !rev_optargs_of_cons. done.
Qed.

(** X14. Options that add suffixes put them in front: after the loop every
    list holds the arguments of its letter latest first, before what it
    held; the defaults then come last, so [-e a -e b] gives the executable
    suffixes [b], [a], ["bin"]. *)
Theorem option_loop_suffixes (VERSION : string) (results : list getopt_result)
    (p p' : process) :
  option_loop VERSION results p = Continue p' →
  config.executable_suffixes (cfg p') =
    rev (optargs_of "e" results) ++ config.executable_suffixes (cfg p) ∧
  config.include_suffixes (cfg p') =
    rev (optargs_of "i" results) ++ config.include_suffixes (cfg p) ∧
  config.info_suffixes (cfg p') =
    rev (optargs_of "I" results) ++ config.info_suffixes (cfg p) ∧
  config.library_suffixes (cfg p') =
    rev (optargs_of "l" results) ++ config.library_suffixes (cfg p) ∧
  config.manpage_suffixes (cfg p') =
    rev (optargs_of "m" results) ++ config.manpage_suffixes (cfg p) ∧
  config.pkg_config_suffixes (cfg p') =
    rev (optargs_of "P" results) ++ config.pkg_config_suffixes (cfg p) ∧
  config.executable_suffixes (config.add_default_configs (cfg p')) =
    rev (optargs_of "e" results) ++ config.executable_suffixes (cfg p) ++ ["bin"].
Proof.
  intros H. apply option_loop_continue in H as (_ & He & Hi & HI & Hl & Hm & HP).
  repeat split; try done.
  cbn [config.add_default_configs config.executable_suffixes].
  by rewrite He, <- app_assoc.
Qed.

Lemma option_loop_suffixes_witness :
  option_loop "1.0"
    [{| opt := "e"; optarg := "a"; optopt := "000" |};
     {| opt := "n"; optarg := ""; optopt := "000" |};
     {| opt := "e"; optarg := "b"; optopt := "000" |}] start =
  Continue {| cfg := config.set_executable_suffixes ["b"; "a"] config.fresh;
              default_configs := false; cout := ""; cerr := "" |} ∧
  config.executable_suffixes
    (config.add_default_configs
       (config.set_executable_suffixes ["b"; "a"] config.fresh)) =
  ["b"; "a"; "bin"].
Proof.
  split; [reflexivity|].
  exact (proj2 (proj2 (proj2 (proj2 (proj2 (proj2
    (option_loop_suffixes "1.0"
       [{| opt := "e"; optarg := "a"; optopt := "000" |};
        {| opt := "n"; optarg := ""; optopt := "000" |};
        {| opt := "e"; optarg := "b"; optopt := "000" |}] start _ eq_refl))))))).
Defined.

(** X15. No option fills [environment_variables]: whatever options the loop
    has handled, [-E] among them, the map is as it was, so from the start
    of [main] it is empty when the script is written. *)
Theorem option_loop_environment (VERSION : string) (results : list getopt_result)
    (p' : process) :
  option_loop VERSION results start = Continue p' →
  config.environment_variables (cfg p') = ∅.
Proof. intros H. by apply option_loop_continue in H as (-> & _). Qed.

Lemma option_loop_environment_witness :
  option_loop "1.0" [{| opt := "E"; optarg := "CC=gcc"; optopt := "000" |}] start =
  Continue (set_cfg (config.set_variables {[ "CC" := "gcc" ]} config.fresh) start) ∧
  config.environment_variables
    (cfg (set_cfg (config.set_variables {[ "CC" := "gcc" ]} config.fresh) start)) = ∅.
Proof.
  split; [reflexivity|].
  exact (option_loop_environment "1.0"
           [{| opt := "E"; optarg := "CC=gcc"; optopt := "000" |}] _ eq_refl).
Defined.

Lemma option_case_exits VERSION r p :
  string_mem (opt r) getopt_letters = true →
  match option_case VERSION r p with
  | Continue p' => cout p' = cout p ∧ cerr p' = cerr p
  | Return code p' =>
      (code = 0%Z ∧ cerr p' = cerr p) ∨
      (code = 2%Z ∧ cout p' = cout p ∧
       ∃ text, cerr p' =
               ((cerr p +:+ usage)
                +:+ "Run cenv -h to get the possible options" +:+ nl) +:+ text)
  | Abort _ => False
  end.
Proof.
  intros Hletter. unfold getopt_letters in Hletter. cbn [string_mem] in Hletter.
  unfold option_case, case_define.
  repeat match goal with
         | |- context [if (opt r =? ?x)%char then _ else _] =>
             destruct (opt r =? x)%char eqn:?
         end;
    try destruct (split_at_equals (optarg r)) as [[key value]|];
    try done; try (by left); try (right; split; [done|split; [done|by eexists]]).
Qed.

(** X16. The loop over the options ends in one of three ways and never in
    [abort ()], as long as [getopt] returns letters of the option string,
    ['?'] or [':']: it goes on having written nothing; it returns 0 and
    has not touched [std::cerr]; or it returns 2, has not touched
    [std::cout], and has sent the usage lines and a message to
    [std::cerr]. *)
Theorem option_loop_exits (VERSION : string) (results : list getopt_result)
    (p : process) :
  Forall (λ r, string_mem (opt r) getopt_letters = true) results →
  match option_loop VERSION results p with
  | Continue p' => cout p' = cout p ∧ cerr p' = cerr p
  | Return code p' =>
      (code = 0%Z ∧ cerr p' = cerr p) ∨
      (code = 2%Z ∧ cout p' = cout p ∧
       ∃ text, cerr p' =
               ((cerr p +:+ usage)
                +:+ "Run cenv -h to get the possible options" +:+ nl) +:+ text)
  | Abort _ => False
  end.
Proof.
  intros Hall. revert p. induction Hall as [|r rest Hr Hrest IH]; intros p.
  { done. }
  cbn [option_loop]. pose proof (option_case_exits VERSION r p Hr) as Hcase.
  destruct (option_case VERSION r p) as [p1|code p1|p1]; [|done..].
  destruct Hcase as [Hout Herr]. specialize (IH p1).
  rewrite Hout, Herr in IH. exact IH.
Qed.

Lemma option_loop_exits_witness :
  Forall (λ r, string_mem (opt r) getopt_letters = true)
    [{| opt := "n"; optarg := ""; optopt := "000" |};
     {| opt := "?"; optarg := ""; optopt := "x" |}] ∧
  match option_loop "1.0"
          [{| opt := "n"; optarg := ""; optopt := "000" |};
           {| opt := "?"; optarg := ""; optopt := "x" |}] start with
  | Continue p' => cout p' = cout start ∧ cerr p' = cerr start
  | Return code p' =>
      (code = 0%Z ∧ cerr p' = cerr start) ∨
      (code = 2%Z ∧ cout p' = cout start ∧
       ∃ text, cerr p' =
               ((cerr start +:+ usage)
                +:+ "Run cenv -h to get the possible options" +:+ nl) +:+ text)
  | Abort _ => False
  end.
Proof.
  assert (H : Forall (λ r, string_mem (opt r) getopt_letters = true)
                [{| opt := "n"; optarg := ""; optopt := "000" |};
                 {| opt := "?"; optarg := ""; optopt := "x" |}])
    by (repeat constructor).
  split; [exact H|].
  exact (option_loop_exits "1.0" _ start H).
Defined.

End cenv.
